(** * Streamlabs custom subscription alert: the configuration-to-styling core

    A shallow embedding of [alerts.js] and the properties its specification
    states about it.

    Conventions of the embedding.
    - A JavaScript number is [NaN], an infinity, or a finite value held as a
      canonical rational ([Qc]).  Every finite double is such a rational; the
      arithmetic the script performs on its clamped values ([r - 8] for
      [r] in [[0,100]], [w / 2] for [w] in [[2,30]]) and every comparison are
      the ones written here.  The decimal-to-binary rounding inside
      [parseFloat] and the sign of zero are not represented.
    - A string is a sequence of code units below 256.
    - A configuration object, the default table and a [dataset] are finite
      maps holding their own properties; reading a key they do not hold
      finds what a plain object inherits from [Object.prototype].  The style
      scope is a finite map of the properties set on it, a [classList] a
      finite set of strings.
    - An element keeps the source assigned to it.  Reading [src] gives what
      the browser reports for it: its string, resolved against the
      document's base URL.  The world supplies that resolution.
    - [ToString] of a value written into a template literal, a style
      property or a data attribute is left unapplied: the written value is
      kept as its parts. *)

From Stdlib Require Import QArith Qcanon ZArith Ascii String List Lia Lqa.
From stdpp Require Import base gmap strings list.

Open Scope string_scope.

(** ** Numbers *)

Inductive number : Type :=
| NaN
| NegInfinity
| Finite (q : Qc)
| PosInfinity.

#[global] Instance number_eq_dec : EqDecision number.
Proof. solve_decision. Defined.

(** A numeric literal of the source. *)
Definition lit (q : Q) : number := Finite (Q2Qc q).

Definition isNaN (x : number) : bool :=
  match x with NaN => true | _ => false end.

(** [x < y] of the language: false as soon as one side is [NaN]. *)
Definition num_ltb (x y : number) : bool :=
  match x, y with
  | NaN, _ | _, NaN => false
  | _, NegInfinity => false
  | NegInfinity, _ => true
  | PosInfinity, _ => false
  | _, PosInfinity => true
  | Finite a, Finite b => bool_decide (a < b)%Qc
  end.

(** [x <= y] of the language. *)
Definition num_leb (x y : number) : bool :=
  match x, y with
  | NaN, _ | _, NaN => false
  | NegInfinity, _ => true
  | _, NegInfinity => false
  | _, PosInfinity => true
  | PosInfinity, _ => false
  | Finite a, Finite b => bool_decide (a <= b)%Qc
  end.

(** [Math.max] and [Math.min] on two arguments. *)
Definition Math_max (x y : number) : number :=
  if isNaN x || isNaN y then NaN
  else if num_ltb x y then y else x.

Definition Math_min (x y : number) : number :=
  if isNaN x || isNaN y then NaN
  else if num_ltb y x then y else x.

(** [x - y] and [x / y]; the script only applies them to a clamped, hence
    finite, left operand and the literals [8] and [2]. *)
Definition num_sub (x y : number) : number :=
  match x, y with
  | NaN, _ | _, NaN => NaN
  | Finite a, Finite b => Finite (a - b)%Qc
  | PosInfinity, PosInfinity | NegInfinity, NegInfinity => NaN
  | PosInfinity, _ | _, NegInfinity => PosInfinity
  | NegInfinity, _ | _, PosInfinity => NegInfinity
  end.

Definition Qc_sign_neg (a : Qc) : bool := bool_decide (a < 0)%Qc.

Definition num_div (x y : number) : number :=
  match x, y with
  | NaN, _ | _, NaN => NaN
  | Finite a, Finite b =>
      if bool_decide (b = 0%Qc) then
        if bool_decide (a = 0%Qc) then NaN
        else if Qc_sign_neg a then NegInfinity else PosInfinity
      else Finite (a / b)%Qc
  | Finite _, _ => Finite 0%Qc
  | PosInfinity, Finite b =>
      if Qc_sign_neg b then NegInfinity else PosInfinity
  | NegInfinity, Finite b =>
      if Qc_sign_neg b then PosInfinity else NegInfinity
  | _, _ => NaN
  end.

(** ** Values *)

Inductive JSValue : Type :=
| VUndefined
| VNull
| VBool (b : bool)
| VNum (n : number)
| VStr (s : string)
(** a function or object built into the language, named by the property of
    [Object.prototype] that holds it *)
| VBuiltin (name : string).

#[global] Instance JSValue_eq_dec : EqDecision JSValue.
Proof. solve_decision. Defined.

(** [v === w]: same type and same value; [NaN] differs from itself. *)
Definition strict_eq (v w : JSValue) : bool :=
  match v, w with
  | VUndefined, VUndefined | VNull, VNull => true
  | VBool a, VBool b => Bool.eqb a b
  | VNum a, VNum b => negb (isNaN a) && bool_decide (a = b)
  | VStr a, VStr b => String.eqb a b
  | VBuiltin a, VBuiltin b => String.eqb a b
  | _, _ => false
  end.

(** [ToBoolean]. *)
Definition truthy (v : JSValue) : bool :=
  match v with
  | VUndefined | VNull => false
  | VBool b => b
  | VNum NaN => false
  | VNum (Finite q) => negb (bool_decide (q = 0%Qc))
  | VNum _ => true
  | VStr s => negb (String.eqb s "")
  | VBuiltin _ => true
  end.

(** [a ?? b]. *)
Definition nullish (a b : JSValue) : JSValue :=
  match a with VUndefined | VNull => b | _ => a end.

(** [a || b]. *)
Definition or_else (a b : JSValue) : JSValue :=
  if truthy a then a else b.

(** ** Strings *)

(** White space and line terminators among the code units below 256. *)
Definition isWhiteSpace (c : ascii) : bool :=
  match N_of_ascii c with
  | 9 | 10 | 11 | 12 | 13 | 32 | 160 => true
  | _ => false
  end%N.

Fixpoint trimStart (s : string) : string :=
  match s with
  | String c r => if isWhiteSpace c then trimStart r else s
  | EmptyString => EmptyString
  end.

Fixpoint trimEnd (s : string) : string :=
  match s with
  | String c r =>
      match trimEnd r with
      | EmptyString => if isWhiteSpace c then EmptyString else String c EmptyString
      | r' => String c r'
      end
  | EmptyString => EmptyString
  end.

(** [s.trim()]. *)
Definition trim (s : string) : string := trimEnd (trimStart s).

(** [s.includes(t)]. *)
Fixpoint includes (s t : string) : bool :=
  String.prefix t s ||
  match s with
  | String _ r => includes r t
  | EmptyString => false
  end.

(** ** [parseFloat] *)

Definition digit_of (c : ascii) : option Z :=
  let n := Z.of_N (N_of_ascii c) in
  if (48 <=? n)%Z && (n <=? 57)%Z then Some (n - 48)%Z else None.

(** The longest run of decimal digits at the head of [s], read as a number
    continuing [acc]; also how many digits were read, and what follows. *)
Fixpoint span_digits (acc : Z) (count : nat) (s : string) : Z * nat * string :=
  match s with
  | String c r =>
      match digit_of c with
      | Some d => span_digits (10 * acc + d) (S count) r
      | None => (acc, count, s)
      end
  | EmptyString => (acc, count, s)
  end.

(** An optional sign: whether it is a minus, and what follows. *)
Definition read_sign (s : string) : bool * string :=
  match s with
  | String "-" r => (true, r)
  | String "+" r => (false, r)
  | _ => (false, s)
  end.

(** An exponent part [e] or [E], an optional sign and at least one digit;
    it is not part of the literal when no digit follows. *)
Definition read_exponent (s : string) : Z :=
  match s with
  | String c r =>
      if (Ascii.eqb c "e" || Ascii.eqb c "E")%bool then
        let '(neg, r1) := read_sign r in
        let '(e, n, _) := span_digits 0 0 r1 in
        match n with
        | O => 0
        | S _ => if neg then - e else e
        end%Z
      else 0%Z
  | EmptyString => 0%Z
  end.

(** The longest prefix of [s] that is a [StrDecimalLiteral], after leading
    white space; [None] when there is none. *)
Definition scan_decimal (s : string) : option number :=
  let '(neg, s1) := read_sign (trimStart s) in
  if String.prefix "Infinity" s1 then
    Some (if neg then NegInfinity else PosInfinity)
  else
    let '(ip, ni, s2) := span_digits 0 0 s1 in
    let '(m, nf, s3) :=
      match s2 with
      | String "." r => span_digits ip 0 r
      | _ => (ip, O, s2)
      end in
    match (ni + nf)%nat with
    | O => None
    | S _ =>
        let e := (read_exponent s3 - Z.of_nat nf)%Z in
        let q := (inject_Z m * Qpower 10 e)%Q in
        Some (Finite (Q2Qc (if neg then - q else q)%Q))
    end.

Definition parseFloat_string (s : string) : number :=
  match scan_decimal s with
  | Some n => n
  | None => NaN
  end.

(** [parseFloat(v)] applies [ToString] first.  The string of a number reads
    back as that number; those of [undefined], [null], the booleans and the
    built-in functions and objects have no numeric prefix. *)
Definition parseFloat (v : JSValue) : number :=
  match v with
  | VStr s => parseFloat_string s
  | VNum n => n
  | VUndefined | VNull | VBool _ | VBuiltin _ => NaN
  end.

(** ** Utility functions of the script *)

Definition Fields := gmap string JSValue.

(** The properties a plain object inherits from [Object.prototype]. *)
Definition Object_prototype : list string :=
  [ "constructor"; "__defineGetter__"; "__defineSetter__"; "hasOwnProperty";
    "__lookupGetter__"; "__lookupSetter__"; "isPrototypeOf";
    "propertyIsEnumerable"; "toString"; "valueOf"; "__proto__";
    "toLocaleString" ].

Definition inherited (key : string) : bool :=
  existsb (String.eqb key) Object_prototype.

(** [fields[key]] on a plain object: its own property, else the one it
    inherits, else [undefined]. *)
Definition get_prop (fields : gmap string JSValue) (key : string) : JSValue :=
  match fields !! key with
  | Some v => v
  | None => if inherited key then VBuiltin key else VUndefined
  end.

Definition getField (fields : gmap string JSValue) (key : string)
    (fallback : JSValue) : JSValue :=
  let val := get_prop fields key in
  if strict_eq val VUndefined || strict_eq val VNull || strict_eq val (VStr "")
  then fallback
  else
    match val with
    | VStr s =>
        let trimmed := trim s in
        if String.eqb trimmed "" then fallback else VStr trimmed
    | _ => val
    end.

Definition parseNumber (value : JSValue) (fallback min max : number) : number :=
  let num := parseFloat value in
  if isNaN num then fallback
  else Math_min (Math_max num min) max.

(** ** The default table *)

Definition DEFAULTS : gmap string JSValue :=
  list_to_map
    [ ("alertBoxShape", VStr "rounded-rectangle");
      ("shapePadding", VNum (lit 16));
      ("maintainAspectRatio", VStr "none");
      ("containerWidth", VNum (lit 1000));
      ("containerHeight", VNum (lit 180));
      ("containerBorderRadius", VNum (lit 42));
      ("containerOutlineWidth", VNum (lit 8));
      ("scalingMode", VStr "fixed");
      ("maxScale", VNum (lit 1.5));
      ("minScale", VNum (lit 0.5));
      ("containerGradient1", VStr "#7d1dff");
      ("containerGradient2", VStr "#a82bff");
      ("containerGradient3", VStr "#5a11c9");
      ("containerGradient4", VStr "#3f0a9b");
      ("gradientAngle", VNum (lit 135));
      ("containerOpacity", VNum (lit 1));
      ("backgroundBlur", VNum (lit 0));
      ("avatarSize", VNum (lit 150));
      ("avatarRingWidth", VNum (lit 10));
      ("avatarShape", VStr "circle");
      ("avatarBorderColor", VStr "#ffffff");
      ("avatarBorderWidth", VNum (lit 4));
      ("circleGradient1", VStr "#ff9a1f");
      ("circleGradient2", VStr "#ff5df2");
      ("circleGradient3", VStr "#7c2dff");
      ("rotationAngle", VNum (lit 25));
      ("rotationSpeed", VNum (lit 6));
      ("ringSpinSpeed", VNum (lit 6));
      ("gradientAnimationSpeed", VNum (lit 8));
      ("introDuration", VNum (lit 800));
      ("introEasing", VStr "easeOutExpo");
      ("enableSway", VStr "true");
      ("enableRingSpin", VStr "true");
      ("enableGradientAnimation", VStr "true");
      ("textScale", VNum (lit 1));
      ("textColorMain", VStr "#0c0018");
      ("textColorMeta", VStr "#f4d8ff");
      ("textShadowColor", VStr "rgba(0, 0, 0, 0.35)");
      ("textShadowBlur", VNum (lit 4));
      ("textCase", VStr "none");
      ("fontChoice", VStr "Ubuntu");
      ("fontWeightPrimary", VNum (lit 900));
      ("fontWeightMeta", VNum (lit 700));
      ("letterSpacing", VNum (lit (-0.02)));
      ("dropShadowEnabled", VStr "true");
      ("dropShadowOffsetX", VNum (lit 0));
      ("dropShadowOffsetY", VNum (lit 12));
      ("dropShadowBlur", VNum (lit 24));
      ("dropShadowColor", VStr "#000000");
      ("dropShadowOpacity", VNum (lit 0.4));
      ("glowEnabled", VStr "false");
      ("glowColor", VStr "#ffffff");
      ("glowIntensity", VNum (lit 20));
      ("layoutDirection", VStr "row");
      ("contentAlignment", VStr "center");
      ("avatarPosition", VStr "center");
      ("contentGap", VNum (lit 24));
      ("fallbackImage", VStr "https://i.imgur.com/y1kRGQp.gif");
      ("soundVolume", VNum (lit 0.8)) ].

(** [ConfigManager.get(key, fallback)] over the fields it holds; an omitted
    [fallback] is [VUndefined]. *)
Definition config_get (fields : gmap string JSValue) (key : string)
    (fallback : JSValue) : JSValue :=
  getField fields key (nullish fallback (get_prop DEFAULTS key)).

(** ** The page and the managers' state *)

(** A template literal, a console message, a style value: literal text and
    interpolated values, in order. *)
Inductive Part : Type :=
| Text (s : string)
| Interp (v : JSValue).

#[global] Instance Part_eq_dec : EqDecision Part.
Proof. solve_decision. Defined.

Record Element : Type := mkElement {
  dataset : gmap string JSValue;
  classList : gset string;
  src : JSValue;
  volume : number;
  currentTime : number;
  textContent : string;
  (** how many times [ImageRenderer.init] registered its error listener *)
  errorListeners : nat;
}.

(** What leaves the script: console output, source loads started by an
    assignment to [src], and the calls into the audio and animation engines. *)
Inductive Effect : Type :=
| ConsoleWarn (msg : list Part)
| ConsoleLog (msg : list Part)
| ConsoleError (msg : list Part)
| LoadSource (el : string) (source : JSValue)
| PlayRequested (el : string)
| AnimeSet (targets : list string)
| AnimeTimeline (stages : list (option string * string)).

(** Callbacks waiting for the current pass to end. *)
Inductive Task : Type :=
| PlayRejected (message : string)
| AnnounceLater (message : string).

(** Elements are named by the selector that finds them; the selectors of the
    script are taken to find distinct elements. *)
Record World : Type := mkWorld {
  (** [window.customFields], [None] when it is not set *)
  customFields : option (gmap string JSValue);
  (** [typeof anime !== "undefined"] *)
  animeLoaded : bool;
  (** the message of the error [play()] rejects with, if it does *)
  playRejects : option string;
  (** what an element's [src] reads as for the source it holds: the
      source's string, resolved against the document's base URL *)
  resolveURL : JSValue -> string;
  document : gmap string Element;
  (** custom properties on the document root *)
  rootStyle : gmap string (list Part);
  ConfigManager_fields : gmap string JSValue;
  ImageRenderer_element : option string;
  ImageRenderer_fallbackSrc : JSValue;
  AudioManager_element : option string;
  AccessibilityManager_element : option string;
  effects : list Effect;
  pending : list Task;
}.

Definition with_document (d : gmap string Element) (w : World) : World :=
  mkWorld (customFields w) (animeLoaded w) (playRejects w) (resolveURL w) d
    (rootStyle w)
    (ConfigManager_fields w) (ImageRenderer_element w)
    (ImageRenderer_fallbackSrc w) (AudioManager_element w)
    (AccessibilityManager_element w) (effects w) (pending w).

Definition with_rootStyle (s : gmap string (list Part)) (w : World) : World :=
  mkWorld (customFields w) (animeLoaded w) (playRejects w) (resolveURL w)
    (document w) s
    (ConfigManager_fields w) (ImageRenderer_element w)
    (ImageRenderer_fallbackSrc w) (AudioManager_element w)
    (AccessibilityManager_element w) (effects w) (pending w).

Definition with_ConfigManager_fields (f : gmap string JSValue) (w : World)
    : World :=
  mkWorld (customFields w) (animeLoaded w) (playRejects w) (resolveURL w)
    (document w)
    (rootStyle w) f (ImageRenderer_element w)
    (ImageRenderer_fallbackSrc w) (AudioManager_element w)
    (AccessibilityManager_element w) (effects w) (pending w).

Definition with_ImageRenderer_element (e : option string) (w : World) : World :=
  mkWorld (customFields w) (animeLoaded w) (playRejects w) (resolveURL w)
    (document w)
    (rootStyle w) (ConfigManager_fields w) e
    (ImageRenderer_fallbackSrc w) (AudioManager_element w)
    (AccessibilityManager_element w) (effects w) (pending w).

Definition with_ImageRenderer_fallbackSrc (v : JSValue) (w : World) : World :=
  mkWorld (customFields w) (animeLoaded w) (playRejects w) (resolveURL w)
    (document w)
    (rootStyle w) (ConfigManager_fields w) (ImageRenderer_element w)
    v (AudioManager_element w)
    (AccessibilityManager_element w) (effects w) (pending w).

Definition with_AudioManager_element (e : option string) (w : World) : World :=
  mkWorld (customFields w) (animeLoaded w) (playRejects w) (resolveURL w)
    (document w)
    (rootStyle w) (ConfigManager_fields w) (ImageRenderer_element w)
    (ImageRenderer_fallbackSrc w) e
    (AccessibilityManager_element w) (effects w) (pending w).

Definition with_AccessibilityManager_element (e : option string) (w : World)
    : World :=
  mkWorld (customFields w) (animeLoaded w) (playRejects w) (resolveURL w)
    (document w)
    (rootStyle w) (ConfigManager_fields w) (ImageRenderer_element w)
    (ImageRenderer_fallbackSrc w) (AudioManager_element w)
    e (effects w) (pending w).

Definition with_effects (l : list Effect) (w : World) : World :=
  mkWorld (customFields w) (animeLoaded w) (playRejects w) (resolveURL w)
    (document w)
    (rootStyle w) (ConfigManager_fields w) (ImageRenderer_element w)
    (ImageRenderer_fallbackSrc w) (AudioManager_element w)
    (AccessibilityManager_element w) l (pending w).

Definition with_pending (l : list Task) (w : World) : World :=
  mkWorld (customFields w) (animeLoaded w) (playRejects w) (resolveURL w)
    (document w)
    (rootStyle w) (ConfigManager_fields w) (ImageRenderer_element w)
    (ImageRenderer_fallbackSrc w) (AudioManager_element w)
    (AccessibilityManager_element w) (effects w) l.

(** ** Computations: state and exceptions *)

Inductive Completion (A : Type) : Type :=
| Normal (a : A)
| Throw (error : list Part).
Arguments Normal {A} a.
Arguments Throw {A} error.

Definition M (A : Type) : Type := World -> Completion A * World.

#[global] Instance M_ret : MRet M := fun A a w => (Normal a, w).

#[global] Instance M_bind : MBind M := fun A B k m w =>
  match m w with
  | (Normal a, w') => k a w'
  | (Throw e, w') => (Throw e, w')
  end.

Definition throw {A} (e : list Part) : M A := fun w => (Throw e, w).

Definition gets {A} (f : World -> A) : M A := fun w => (Normal (f w), w).

Definition modify (f : World -> World) : M unit := fun w => (Normal tt, f w).

(** [try { body } catch (error) { handler(error) }]. *)
Definition try_catch (body : M unit) (handler : list Part -> M unit) : M unit :=
  fun w =>
    match body w with
    | (Normal a, w') => (Normal a, w')
    | (Throw e, w') => handler e w'
    end.

(** The world a computation leaves. *)
Definition exec {A} (m : M A) (w : World) : World := snd (m w).

Definition emit (e : Effect) : M unit :=
  modify (fun w => with_effects (effects w ++ [e]) w).

Definition defer (t : Task) : M unit :=
  modify (fun w => with_pending (pending w ++ [t]) w).

Definition update_element (el : string) (f : Element -> Element) : M unit :=
  modify (fun w => with_document (alter f el (document w)) w).

Definition set_data (key : string) (v : JSValue) (e : Element) : Element :=
  mkElement (<[key := v]> (dataset e)) (classList e) (src e) (volume e)
    (currentTime e) (textContent e) (errorListeners e).

Definition delete_data (key : string) (e : Element) : Element :=
  mkElement (delete key (dataset e)) (classList e) (src e) (volume e)
    (currentTime e) (textContent e) (errorListeners e).

(** [classList.toggle(name, force)]. *)
Definition toggle_class (name : string) (force : bool) (e : Element) : Element :=
  mkElement (dataset e)
    (if force then {[name]} ∪ classList e else classList e ∖ {[name]})
    (src e) (volume e) (currentTime e) (textContent e) (errorListeners e).

Definition set_src (v : JSValue) (e : Element) : Element :=
  mkElement (dataset e) (classList e) v (volume e) (currentTime e)
    (textContent e) (errorListeners e).

Definition set_volume (n : number) (e : Element) : Element :=
  mkElement (dataset e) (classList e) (src e) n (currentTime e)
    (textContent e) (errorListeners e).

Definition set_currentTime (n : number) (e : Element) : Element :=
  mkElement (dataset e) (classList e) (src e) (volume e) n
    (textContent e) (errorListeners e).

Definition set_textContent (s : string) (e : Element) : Element :=
  mkElement (dataset e) (classList e) (src e) (volume e) (currentTime e)
    s (errorListeners e).

Definition add_errorListener (e : Element) : Element :=
  mkElement (dataset e) (classList e) (src e) (volume e) (currentTime e)
    (textContent e) (S (errorListeners e)).

(** [$(selector)]: the selectors of the script are well formed, so the
    [catch] branch is never taken. *)
Definition query (selector : string) : M (option string) :=
  gets (fun w =>
    match document w !! selector with
    | Some _ => Some selector
    | None => None
    end).

Definition setVar (name : string) (value : list Part) : M unit :=
  modify (fun w => with_rootStyle (<["--" ++ name := value]> (rootStyle w)) w).

(** An assignment to [el.src] stores the source and starts loading it. *)
Definition assign_src (el : string) (v : JSValue) : M unit :=
  update_element el (set_src v) ;; emit (LoadSource el v).

Definition px (n : number) : list Part := [Interp (VNum n); Text "px"].

(** ** ConfigManager *)

(** [this.fields = window.customFields || {}]; the images table it also
    loads is never read. *)
Definition ConfigManager_init : M unit :=
  modify (fun w => with_ConfigManager_fields (default ∅ (customFields w)) w).

Definition ConfigManager_get (key : string) (fallback : JSValue) : M JSValue :=
  gets (fun w => config_get (ConfigManager_fields w) key fallback).

(** The string of a loop index below ten. *)
Definition digit_string (i : nat) : string :=
  String (ascii_of_nat (48 + i)) EmptyString.

(** [for (let i = 1; i <= last; i++) body(i)], as its indices in order. *)
Fixpoint for_each (indices : list nat) (body : nat -> M unit) : M unit :=
  match indices with
  | [] => mret tt
  | i :: rest => body i ;; for_each rest body
  end.

(** ** ThemeManager *)

Definition ThemeManager_applyContainerSize : M unit :=
  v1 ← ConfigManager_get "containerWidth" VUndefined;
  let width := parseNumber v1 (lit 1000) (lit 300) (lit 1600) in
  v2 ← ConfigManager_get "containerHeight" VUndefined;
  let height := parseNumber v2 (lit 180) (lit 80) (lit 400) in
  v3 ← ConfigManager_get "containerBorderRadius" VUndefined;
  let borderRadius := parseNumber v3 (lit 42) (lit 0) (lit 100) in
  v4 ← ConfigManager_get "containerOutlineWidth" VUndefined;
  let outlineWidth := parseNumber v4 (lit 8) (lit 1) (lit 30) in
  setVar "container-width" (px width) ;;
  setVar "container-height" (px height) ;;
  setVar "container-radius-outer" (px borderRadius) ;;
  setVar "container-radius-inner"
    (px (Math_max (lit 0) (num_sub borderRadius (lit 8)))) ;;
  setVar "outline-width" (px outlineWidth).

Definition ThemeManager_applyContainerGradients : M unit :=
  for_each [1; 2; 3; 4]%nat (fun i =>
    color ← ConfigManager_get ("containerGradient" ++ digit_string i) VUndefined;
    setVar ("container-" ++ digit_string i) [Interp color]).

Definition ThemeManager_applyAvatarSize : M unit :=
  v1 ← ConfigManager_get "avatarSize" VUndefined;
  let size := parseNumber v1 (lit 150) (lit 60) (lit 300) in
  v2 ← ConfigManager_get "avatarRingWidth" VUndefined;
  let ringWidth := parseNumber v2 (lit 10) (lit 2) (lit 30) in
  setVar "avatar-size" (px size) ;;
  setVar "avatar-ring-offset" (px ringWidth) ;;
  setVar "avatar-ring-width"
    (px (Math_max (lit 2) (num_div ringWidth (lit 2)))).

Definition ThemeManager_applyRingGradients : M unit :=
  for_each [1; 2; 3]%nat (fun i =>
    color ← ConfigManager_get ("circleGradient" ++ digit_string i) VUndefined;
    setVar ("ring-" ++ digit_string i) [Interp color]).

Definition ThemeManager_applyAnimation : M unit :=
  v1 ← ConfigManager_get "rotationAngle" VUndefined;
  let angle := parseNumber v1 (lit 25) (lit 0) (lit 45) in
  v2 ← ConfigManager_get "rotationSpeed" VUndefined;
  let speed := parseNumber v2 (lit 6) (lit 1) (lit 20) in
  v3 ← ConfigManager_get "ringSpinSpeed" VUndefined;
  let ringSpeed := parseNumber v3 (lit 6) (lit 1) (lit 20) in
  setVar "sway-angle" [Interp (VNum angle); Text "deg"] ;;
  setVar "sway-duration" [Interp (VNum speed); Text "s"] ;;
  setVar "ring-spin-duration" [Interp (VNum ringSpeed); Text "s"].

Definition ThemeManager_applyTypography : M unit :=
  v1 ← ConfigManager_get "textScale" VUndefined;
  let scale := parseNumber v1 (lit 1) (lit 0.5) (lit 2) in
  textCase ← ConfigManager_get "textCase" (VStr "none");
  font ← ConfigManager_get "fontChoice" (VStr "Ubuntu");
  v2 ← ConfigManager_get "textShadowBlur" VUndefined;
  let shadowBlur := parseNumber v2 (lit 4) (lit 0) (lit 30) in
  fontWeightPrimary ← ConfigManager_get "fontWeightPrimary" (VNum (lit 900));
  fontWeightMeta ← ConfigManager_get "fontWeightMeta" (VNum (lit 700));
  v3 ← ConfigManager_get "letterSpacing" VUndefined;
  let letterSpacing := parseNumber v3 (lit (-0.02)) (lit (-0.1)) (lit 0.3) in
  setVar "text-scale" [Interp (VNum scale)] ;;
  setVar "text-transform" [Interp textCase] ;;
  setVar "font-family"
    [Text "'"; Interp font; Text "', 'Ubuntu', system-ui, sans-serif"] ;;
  c1 ← ConfigManager_get "textColorMain" VUndefined;
  setVar "text-primary" [Interp c1] ;;
  c2 ← ConfigManager_get "textColorMeta" VUndefined;
  setVar "text-secondary" [Interp c2] ;;
  c3 ← ConfigManager_get "textShadowColor" VUndefined;
  setVar "text-shadow-color" [Interp c3] ;;
  setVar "text-shadow-blur" (px shadowBlur) ;;
  setVar "font-weight-primary" [Interp fontWeightPrimary] ;;
  setVar "font-weight-meta" [Interp fontWeightMeta] ;;
  setVar "letter-spacing" [Interp (VNum letterSpacing); Text "em"].

Definition ThemeManager_apply : M unit :=
  ThemeManager_applyContainerSize ;;
  ThemeManager_applyContainerGradients ;;
  ThemeManager_applyAvatarSize ;;
  ThemeManager_applyRingGradients ;;
  ThemeManager_applyAnimation ;;
  ThemeManager_applyTypography.

(** ** ShapeManager *)

Definition ShapeManager_apply : M unit :=
  frame ← query ".alert-frame";
  avatarWrapper ← query ".alert-avatar-wrapper";
  match frame with
  | None =>
      emit (ConsoleWarn [Text "[Alert] Alert frame not found for shape application"])
  | Some frame =>
      shape ← ConfigManager_get "alertBoxShape" (VStr "rounded-rectangle");
      update_element frame (set_data "shape" shape) ;;
      aspectRatio ← ConfigManager_get "maintainAspectRatio" (VStr "none");
      (if negb (strict_eq aspectRatio (VStr "none"))
       then update_element frame (set_data "aspect" aspectRatio)
       else update_element frame (delete_data "aspect")) ;;
      match avatarWrapper with
      | Some avatarWrapper =>
          avatarShape ← ConfigManager_get "avatarShape" (VStr "circle");
          update_element avatarWrapper (set_data "avatarShape" avatarShape)
      | None => mret tt
      end ;;
      v ← ConfigManager_get "shapePadding" VUndefined;
      let padding := parseNumber v (lit 16) (lit 0) (lit 60) in
      setVar "shape-padding" (px padding)
  end.

(** ** EffectsManager *)

Definition flag (enabled : bool) : list Part :=
  [Interp (VStr (if enabled then "1" else "0"))].

Definition EffectsManager_applyDropShadow : M unit :=
  e ← ConfigManager_get "dropShadowEnabled" (VStr "true");
  let enabled := strict_eq e (VStr "true") in
  v1 ← ConfigManager_get "dropShadowOffsetX" VUndefined;
  let offsetX := parseNumber v1 (lit 0) (lit (-50)) (lit 50) in
  v2 ← ConfigManager_get "dropShadowOffsetY" VUndefined;
  let offsetY := parseNumber v2 (lit 12) (lit 0) (lit 50) in
  v3 ← ConfigManager_get "dropShadowBlur" VUndefined;
  let blur := parseNumber v3 (lit 24) (lit 0) (lit 80) in
  color ← ConfigManager_get "dropShadowColor" (VStr "#000000");
  v4 ← ConfigManager_get "dropShadowOpacity" VUndefined;
  let opacity := parseNumber v4 (lit 0.4) (lit 0) (lit 1) in
  setVar "drop-shadow-enabled" (flag enabled) ;;
  setVar "drop-shadow-x" (px offsetX) ;;
  setVar "drop-shadow-y" (px offsetY) ;;
  setVar "drop-shadow-blur" (px blur) ;;
  setVar "drop-shadow-color" [Interp color] ;;
  setVar "drop-shadow-opacity" [Interp (VNum opacity)].

Definition EffectsManager_applyGlow : M unit :=
  frame ← query ".alert-frame";
  e ← ConfigManager_get "glowEnabled" (VStr "false");
  let enabled := strict_eq e (VStr "true") in
  color ← ConfigManager_get "glowColor" (VStr "#ffffff");
  v ← ConfigManager_get "glowIntensity" VUndefined;
  let intensity := parseNumber v (lit 20) (lit 5) (lit 60) in
  setVar "glow-enabled" (flag enabled) ;;
  setVar "glow-color" [Interp color] ;;
  setVar "glow-intensity" (px intensity) ;;
  match frame with
  | Some frame => update_element frame (toggle_class "alert-frame--glow" enabled)
  | None => mret tt
  end.

Definition EffectsManager_applyAnimationToggles : M unit :=
  frame ← query ".alert-frame";
  ring ← query ".alert-avatar-ring";
  e1 ← ConfigManager_get "enableSway" (VStr "true");
  let swayEnabled := strict_eq e1 (VStr "true") in
  match frame with
  | Some frame =>
      update_element frame (toggle_class "alert-frame--no-sway" (negb swayEnabled))
  | None => mret tt
  end ;;
  e2 ← ConfigManager_get "enableRingSpin" (VStr "true");
  let ringSpinEnabled := strict_eq e2 (VStr "true") in
  match ring with
  | Some ring =>
      update_element ring
        (toggle_class "alert-avatar-ring--no-spin" (negb ringSpinEnabled))
  | None => mret tt
  end ;;
  e3 ← ConfigManager_get "enableGradientAnimation" (VStr "true");
  let gradientEnabled := strict_eq e3 (VStr "true") in
  match frame with
  | Some frame =>
      update_element frame
        (toggle_class "alert-frame--no-gradient-animation" (negb gradientEnabled))
  | None => mret tt
  end ;;
  v ← ConfigManager_get "gradientAnimationSpeed" VUndefined;
  let gradientSpeed := parseNumber v (lit 8) (lit 2) (lit 20) in
  setVar "gradient-duration" [Interp (VNum gradientSpeed); Text "s"].

Definition EffectsManager_apply : M unit :=
  EffectsManager_applyDropShadow ;;
  EffectsManager_applyGlow ;;
  EffectsManager_applyAnimationToggles.

(** ** ImageRenderer *)

(** [element.src], read: what the browser reports for the source the
    element holds. *)
Definition read_src (w : World) (e : Element) : JSValue :=
  VStr (resolveURL w (src e)).

Definition ImageRenderer_init : M unit :=
  el ← query "#alert-avatar";
  modify (with_ImageRenderer_element el) ;;
  match el with
  | None => emit (ConsoleWarn [Text "[Alert] Avatar element not found"])
  | Some avatar =>
      fallback ← gets (fun w =>
        match document w !! avatar with
        | Some e => get_prop (dataset e) "fallback"
        | None => VUndefined
        end);
      modify (with_ImageRenderer_fallbackSrc
                (or_else fallback (get_prop DEFAULTS "fallbackImage"))) ;;
      update_element avatar add_errorListener
  end.

Definition ImageRenderer_render : M unit := mret tt.

Definition ImageRenderer_handleError : M unit :=
  el ← gets ImageRenderer_element;
  match el with
  | None => mret tt
  | Some avatar =>
      currentSrc ← gets (fun w =>
        match document w !! avatar with
        | Some e => read_src w e
        | None => VUndefined
        end);
      fallbackSrc ← gets ImageRenderer_fallbackSrc;
      if negb (strict_eq currentSrc fallbackSrc) then
        emit (ConsoleWarn [Text "[Alert] Image failed to load: ";
                           Interp currentSrc; Text ", using fallback"]) ;;
        assign_src avatar fallbackSrc
      else mret tt
  end.

Fixpoint repeat_M (n : nat) (m : M unit) : M unit :=
  match n with
  | O => mret tt
  | S k => m ;; repeat_M k m
  end.

(** A load failure of the avatar image: every listener registered on the
    element runs, each one calling [handleError]. *)
Definition avatar_load_failure : M unit :=
  n ← gets (fun w =>
    match document w !! "#alert-avatar" with
    | Some e => errorListeners e
    | None => O
    end);
  repeat_M n ImageRenderer_handleError.

(** ** AudioManager *)

Definition AudioManager_init : M unit :=
  el ← query "#alert-sound";
  modify (with_AudioManager_element el).

(** [!str || str.includes("{") || str.includes("}")]; only strings have
    [includes]. *)
Definition AudioManager_isTokenString (str : JSValue) : M bool :=
  if negb (truthy str) then mret true
  else
    match str with
    | VStr s => mret (includes s "{" || includes s "}")
    | _ => throw [Text "TypeError: str.includes is not a function"]
    end.

Definition AudioManager_play : M unit :=
  el ← gets AudioManager_element;
  match el with
  | None => mret tt
  | Some sound =>
      soundSrc ← ConfigManager_get "alertSound" (VStr "");
      v ← ConfigManager_get "soundVolume" VUndefined;
      let volume := parseNumber v (lit 0.8) (lit 0) (lit 1) in
      resolved ←
        (if truthy soundSrc
         then token ← AudioManager_isTokenString soundSrc; mret (negb token)
         else mret false);
      if resolved : bool then
        assign_src sound soundSrc ;;
        update_element sound (set_volume volume) ;;
        update_element sound (set_currentTime (lit 0)) ;;
        emit (PlayRequested sound) ;;
        rejection ← gets playRejects;
        match rejection with
        | Some message => defer (PlayRejected message)
        | None => mret tt
        end
      else mret tt
  end.

(** ** AnimationController *)

Definition AnimationController_isAvailable : M bool := gets animeLoaded.

Definition AnimationController_playIntro : M unit :=
  available ← AnimationController_isAvailable;
  if negb available then
    emit (ConsoleWarn [Text "[Alert] anime.js not available, skipping animations"])
  else
    frame ← query ".alert-frame";
    leftZone ← query ".alert-zone--left";
    rightZone ← query ".alert-zone--right";
    avatarWrapper ← query ".alert-avatar-wrapper";
    let targets := omap id [frame; leftZone; rightZone; avatarWrapper] in
    if (length targets =? 0)%nat then
      emit (ConsoleWarn [Text "[Alert] No animation targets found"])
    else
      emit (AnimeSet targets) ;;
      emit (AnimeTimeline [(frame, ""); (leftZone, "-=400");
                           (avatarWrapper, "-=400"); (rightZone, "-=400")]).

(** ** AccessibilityManager *)

Definition AccessibilityManager_init : M unit :=
  el ← query "#sr-announcement";
  modify (with_AccessibilityManager_element el).

Definition AccessibilityManager_announce (message : string) : M unit :=
  el ← gets AccessibilityManager_element;
  match el with
  | None => mret tt
  | Some announcer =>
      update_element announcer (set_textContent "") ;;
      defer (AnnounceLater message)
  end.

(** The callbacks, when their turn comes. *)
Definition run_task (t : Task) : M unit :=
  match t with
  | PlayRejected message =>
      emit (ConsoleWarn [Text "[Alert] Audio playback failed:"; Text message])
  | AnnounceLater message =>
      el ← gets AccessibilityManager_element;
      match el with
      | Some announcer => update_element announcer (set_textContent message)
      | None => throw [Text "TypeError: this.element is null"]
      end
  end.

(** ** Main initialization *)

Definition init : M unit :=
  try_catch
    (ConfigManager_init ;;
     ImageRenderer_init ;;
     AudioManager_init ;;
     AccessibilityManager_init ;;
     ThemeManager_apply ;;
     ShapeManager_apply ;;
     EffectsManager_apply ;;
     ImageRenderer_render ;;
     AudioManager_play ;;
     AnimationController_playIntro ;;
     AccessibilityManager_announce "New subscription alert" ;;
     emit (ConsoleLog [Text "[Alert] Initialization complete v2.1.0"]))
    (fun error =>
       emit (ConsoleError (Text "[Alert] Initialization error:" :: error))).

(** [window.AlertWidget.reinit]. *)
Definition reinit : M unit := init.

(** A blank element. *)
Definition blank : Element :=
  mkElement ∅ ∅ (VStr "") (lit 1) (lit 0) "" O.

(** The browser of the examples.  Their document is at
    [https://alerts.example/widget/]: a string that names a scheme is a
    URL of its own and is reported as it is, and a file name is reported
    under the document's address.  The examples hold such strings only. *)
Definition example_url (v : JSValue) : string :=
  match v with
  | VStr s =>
      if includes s "://" then s else "https://alerts.example/widget/" ++ s
  | _ => "https://alerts.example/widget/"
  end.

(** The page before the script has run. *)
Definition page (fields : option (gmap string JSValue)) (anime : bool)
    (rejects : option string) (doc : gmap string Element) : World :=
  mkWorld fields anime rejects example_url doc ∅ ∅ None
    (get_prop DEFAULTS "fallbackImage") None None [] [].

(** ** Notions used by the statements *)

(** [lo <= r <= hi]. *)
Definition in_range (lo hi r : number) : bool := num_leb lo r && num_leb r hi.

(** Each call [parseNumber(ConfigManager.get(key), fallback, min, max)] of
    the script: the key, the fallback and the bounds. *)
Definition numeric_settings : list (string * number * number * number) :=
  [ ("containerWidth", lit 1000, lit 300, lit 1600);
    ("containerHeight", lit 180, lit 80, lit 400);
    ("containerBorderRadius", lit 42, lit 0, lit 100);
    ("containerOutlineWidth", lit 8, lit 1, lit 30);
    ("avatarSize", lit 150, lit 60, lit 300);
    ("avatarRingWidth", lit 10, lit 2, lit 30);
    ("rotationAngle", lit 25, lit 0, lit 45);
    ("rotationSpeed", lit 6, lit 1, lit 20);
    ("ringSpinSpeed", lit 6, lit 1, lit 20);
    ("textScale", lit 1, lit 0.5, lit 2);
    ("textShadowBlur", lit 4, lit 0, lit 30);
    ("letterSpacing", lit (-0.02), lit (-0.1), lit 0.3);
    ("shapePadding", lit 16, lit 0, lit 60);
    ("dropShadowOffsetX", lit 0, lit (-50), lit 50);
    ("dropShadowOffsetY", lit 12, lit 0, lit 50);
    ("dropShadowBlur", lit 24, lit 0, lit 80);
    ("dropShadowOpacity", lit 0.4, lit 0, lit 1);
    ("glowIntensity", lit 20, lit 5, lit 60);
    ("gradientAnimationSpeed", lit 8, lit 2, lit 20);
    ("soundVolume", lit 0.8, lit 0, lit 1) ].

(** The number the script derives for the numeric setting [key]. *)
Definition numeric_setting (fields : gmap string JSValue) (key : string) : number :=
  match List.find (fun s => String.eqb (fst (fst (fst s))) key) numeric_settings with
  | Some (_, fallback, min, max) =>
      parseNumber (config_get fields key VUndefined) fallback min max
  | None => NaN
  end.

(** A string of decimal digits only. *)
Fixpoint all_digits (s : string) : bool :=
  match s with
  | String c r => bool_decide (is_Some (digit_of c)) && all_digits r
  | EmptyString => true
  end.



(** An entry the field accessor treats as not given: the key reads as
    [undefined] (no entry), [null], or a string with nothing but white
    space. *)
Definition entry_empty (fields : gmap string JSValue) (key : string) : bool :=
  match get_prop fields key with
  | VUndefined | VNull => true
  | VStr s => String.eqb (trim s) ""
  | _ => false
  end.

(** The class list of an element of the page, empty when it is missing. *)
Definition classes_of (w : World) (el : string) : gset string :=
  match document w !! el with
  | Some e => classList e
  | None => ∅
  end.

(** The data attributes of an element of the page. *)
Definition data_of (w : World) (el : string) : gmap string JSValue :=
  match document w !! el with
  | Some e => dataset e
  | None => ∅
  end.

(** A sound source the audio manager plays: a non-empty string without a
    brace. *)
Definition sound_resolved (source : JSValue) : bool :=
  match source with
  | VStr s => negb (String.eqb s "") && negb (includes s "{") && negb (includes s "}")
  | _ => false
  end.

(** The state of the sound element after the manager has set it up. *)
Definition sound_ready (source : JSValue) (vol : number) (e : Element) : Element :=
  set_currentTime (lit 0) (set_volume vol (set_src source e)).

(** How many source loads the script has started on the element [el]. *)
Definition loads (el : string) (w : World) : nat :=
  length (List.filter
            (fun x => match x with
                      | LoadSource el' _ => String.eqb el' el
                      | _ => false
                      end)
            (effects w)).

(** The recorded fallback source reads back as it is assigned: the browser
    reports it unchanged, as it does an absolute, normalized URL such as
    the default fallback image. *)
Definition fallback_reads_back (w : World) : bool :=
  strict_eq (VStr (resolveURL w (ImageRenderer_fallbackSrc w)))
    (ImageRenderer_fallbackSrc w).

(** The avatar image shows its fallback: the renderer holds the element and
    the source the element reports is the recorded fallback source. *)
Definition shows_fallback (avatar : string) (w : World) : Prop :=
  ImageRenderer_element w = Some avatar /\
  exists e, document w !! avatar = Some e /\
            strict_eq (read_src w e) (ImageRenderer_fallbackSrc w) = true.

(** The renderer holds the avatar element, the element is in the page, and
    the recorded fallback source reads back as it is assigned. *)
Definition fallback_ready (avatar : string) (w : World) : Prop :=
  ImageRenderer_element w = Some avatar /\
  is_Some (document w !! avatar) /\
  fallback_reads_back w = true.

(** The renderer holds the avatar element, which is in the page with one
    error listener, and neither the source the element holds nor the
    recorded fallback source is reported as the recorded fallback. *)
Definition fallback_unreported (avatar : string) (w : World) : Prop :=
  ImageRenderer_element w = Some avatar /\
  fallback_reads_back w = false /\
  exists e, document w !! avatar = Some e /\
            errorListeners e = 1%nat /\
            strict_eq (read_src w e) (ImageRenderer_fallbackSrc w) = false.

(** A page whose avatar image names its fallback by a file name, and whose
    first source fails to load. *)
Definition relative_fallback_page : World :=
  page None true None
    {["#alert-avatar" :=
        set_data "fallback" (VStr "fallback.png")
          (set_src (VStr "https://example.com/gone.png") blank)]}.

(** From [w] to [w']: nothing happened, or the fallback now shows and one
    more load was started. *)
Definition fallback_settled (avatar : string) (w w' : World) : Prop :=
  w' = w \/ (shows_fallback avatar w' /\ loads avatar w' = S (loads avatar w)).

(** The source attribute of an element of the page. *)
Definition src_of (w : World) (el : string) : option JSValue :=
  src <$> document w !! el.

(** What the specification observes of a pass: the style variables on the
    root, and per element its data attributes, its classes and its source
    attribute. *)
Definition style_and_attributes (w : World)
    : gmap string (list Part)
      * gmap string (gmap string JSValue * gset string * JSValue) :=
  (rootStyle w, (fun e => (dataset e, classList e, src e)) <$> document w).

(** The places a pass writes to, and what is seen there. *)
Inductive Place : Type :=
| StyleVar (name : string)
| DataAttr (el key : string)
| ClassName (el name : string)
| SrcAttr (el : string).

Inductive Seen : Type :=
| SeenVar (v : option (list Part))
| SeenData (v : option JSValue)
| SeenClass (b : bool)
| SeenSrc (v : option JSValue).

Definition seen (w : World) (p : Place) : Seen :=
  match p with
  | StyleVar name => SeenVar (rootStyle w !! name)
  | DataAttr el key => SeenData (data_of w el !! key)
  | ClassName el name => SeenClass (bool_decide (name ∈ classes_of w el))
  | SrcAttr el => SeenSrc (src_of w el)
  end.

(** Two worlds on the same page: what the host supplies is the same, and
    the same elements are there. *)
Definition same_page (w1 w2 : World) : Prop :=
  customFields w1 = customFields w2 /\
  animeLoaded w1 = animeLoaded w2 /\
  playRejects w1 = playRejects w2 /\
  dom (document w1) = dom (document w2).

(** ... whose managers moreover hold the same fields and elements. *)
Definition same_env (w1 w2 : World) : Prop :=
  same_page w1 w2 /\
  ConfigManager_fields w1 = ConfigManager_fields w2 /\
  AudioManager_element w1 = AudioManager_element w2 /\
  AccessibilityManager_element w1 = AccessibilityManager_element w2.

(** A computation that behaves alike from two such worlds: it completes the
    same way, stays on the page, and each place ends with the same content
    in both runs unless both runs left it alone. *)
Definition stable {A} (m : M A) : Prop :=
  forall w1 w2, same_env w1 w2 ->
    fst (m w1) = fst (m w2) /\
    same_env (snd (m w1)) (snd (m w2)) /\
    same_page w1 (snd (m w1)) /\
    forall p,
      seen (snd (m w1)) p = seen (snd (m w2)) p \/
      (seen (snd (m w1)) p = seen w1 p /\ seen (snd (m w2)) p = seen w2 p).

(** An element update that sets attributes, classes and the source to
    values of its own, or leaves them. *)
Definition overwrites (g : Element -> Element) : Prop :=
  forall e1 e2,
    (forall key,
        dataset (g e1) !! key = dataset (g e2) !! key \/
        (dataset (g e1) !! key = dataset e1 !! key /\
         dataset (g e2) !! key = dataset e2 !! key)) /\
    (forall name,
        bool_decide (name ∈ classList (g e1)) = bool_decide (name ∈ classList (g e2)) \/
        (bool_decide (name ∈ classList (g e1)) = bool_decide (name ∈ classList e1) /\
         bool_decide (name ∈ classList (g e2)) = bool_decide (name ∈ classList e2))) /\
    (src (g e1) = src (g e2) \/ (src (g e1) = src e1 /\ src (g e2) = src e2)).

(** The two halves of [init]'s body. *)
Definition managers_init : M unit :=
  ConfigManager_init ;;
  ImageRenderer_init ;;
  AudioManager_init ;;
  AccessibilityManager_init.

Definition first_pass : M unit :=
  ThemeManager_apply ;;
  ShapeManager_apply ;;
  EffectsManager_apply ;;
  ImageRenderer_render ;;
  AudioManager_play ;;
  AnimationController_playIntro ;;
  AccessibilityManager_announce "New subscription alert" ;;
  emit (ConsoleLog [Text "[Alert] Initialization complete v2.1.0"]).

Definition init_handler (error : list Part) : M unit :=
  emit (ConsoleError (Text "[Alert] Initialization error:" :: error)).

(** ** Notions used by the further properties *)

(** A value that is neither [undefined] nor [null]. *)
Definition is_defined (v : JSValue) : bool :=
  match v with
  | VUndefined | VNull => false
  | _ => true
  end.

(** A written value no part of which is [undefined] or [null]. *)
Definition defined_parts (parts : list Part) : Prop :=
  Forall (fun p => match p with
                   | Interp v => is_defined v = true
                   | Text _ => True
                   end) parts.

(** A computation after which each style variable is what it was, or has
    no [undefined] or [null] part. *)
Definition writes_defined {A} (m : M A) : Prop :=
  forall w name parts,
    rootStyle (snd (m w)) !! name = Some parts ->
    rootStyle w !! name = Some parts \/ defined_parts parts.

(** The style variables the theme translator writes. *)
Definition theme_variables : gset string :=
  list_to_set
    [ "--container-width"; "--container-height"; "--container-radius-outer";
      "--container-radius-inner"; "--outline-width";
      "--container-1"; "--container-2"; "--container-3"; "--container-4";
      "--avatar-size"; "--avatar-ring-offset"; "--avatar-ring-width";
      "--ring-1"; "--ring-2"; "--ring-3";
      "--sway-angle"; "--sway-duration"; "--ring-spin-duration";
      "--text-scale"; "--text-transform"; "--font-family"; "--text-primary";
      "--text-secondary"; "--text-shadow-color"; "--text-shadow-blur";
      "--font-weight-primary"; "--font-weight-meta"; "--letter-spacing" ].

(** The style variables the effects translator writes. *)
Definition effects_variables : gset string :=
  list_to_set
    [ "--drop-shadow-enabled"; "--drop-shadow-x"; "--drop-shadow-y";
      "--drop-shadow-blur"; "--drop-shadow-color"; "--drop-shadow-opacity";
      "--glow-enabled"; "--glow-color"; "--glow-intensity";
      "--gradient-duration" ].

(** The selector when the page has the element, as [$] gives it. *)
Definition found (w : World) (selector : string) : option string :=
  match document w !! selector with
  | Some _ => Some selector
  | None => None
  end.


(** The text of an element of the page. *)
Definition text_of (w : World) (el : string) : option string :=
  textContent <$> document w !! el.

Definition is_warning (x : Effect) : Prop :=
  match x with
  | ConsoleWarn _ => True
  | _ => False
  end.

(** From [w] to [w']: only the style scope, the elements' state and the
    log may differ, and the log only by warnings added at its end. *)
Definition only_page_changed (w w' : World) : Prop :=
  customFields w' = customFields w /\
  animeLoaded w' = animeLoaded w /\
  playRejects w' = playRejects w /\
  dom (document w') = dom (document w) /\
  ConfigManager_fields w' = ConfigManager_fields w /\
  ImageRenderer_element w' = ImageRenderer_element w /\
  ImageRenderer_fallbackSrc w' = ImageRenderer_fallbackSrc w /\
  AudioManager_element w' = AudioManager_element w /\
  AccessibilityManager_element w' = AccessibilityManager_element w /\
  pending w' = pending w /\
  exists warnings,
    effects w' = (effects w ++ warnings)%list /\ Forall is_warning warnings.

(** A computation that always completes and changes the page only. *)
Definition tidy (m : M unit) : Prop :=
  forall w, exists w', m w = (Normal tt, w') /\ only_page_changed w w'.

(** The sound source makes [isTokenString] fail: it is truthy and no
    string. *)
Definition sound_breaks (source : JSValue) : bool :=
  truthy source && match source with VStr _ => false | _ => true end.

Definition completion_logged : Effect :=
  ConsoleLog [Text "[Alert] Initialization complete v2.1.0"].

Definition includes_error : Effect :=
  ConsoleError [Text "[Alert] Initialization error:";
                Text "TypeError: str.includes is not a function"].

Definition is_error (x : Effect) : Prop :=
  match x with
  | ConsoleError _ => True
  | _ => False
  end.

(** The three translators in the order [init] runs them. *)
Definition translators : M unit :=
  ThemeManager_apply ;; ShapeManager_apply ;; EffectsManager_apply.

#[global] Instance Place_eq_dec : EqDecision Place.
Proof. solve_decision. Defined.

(** The attributes, classes and sources the pass assigns. *)
Definition written_places : list Place :=
  [ DataAttr ".alert-frame" "shape";
    DataAttr ".alert-frame" "aspect";
    DataAttr ".alert-avatar-wrapper" "avatarShape";
    ClassName ".alert-frame" "alert-frame--glow";
    ClassName ".alert-frame" "alert-frame--no-sway";
    ClassName ".alert-frame" "alert-frame--no-gradient-animation";
    ClassName ".alert-avatar-ring" "alert-avatar-ring--no-spin";
    SrcAttr "#alert-sound" ].

(** A place the pass has no business with: a style property that is not a
    custom property, or an attribute, class or source it does not assign. *)
Definition foreign (p : Place) : Prop :=
  match p with
  | StyleVar name => String.prefix "--" name = false
  | _ => p ∉ written_places
  end.

(** The audio manager holds the sound element or none. *)
Definition sound_bound (w : World) : Prop :=
  AudioManager_element w = None \/ AudioManager_element w = Some "#alert-sound".

(** A computation that leaves the place [p] as it is. *)
Definition keeps {A} (p : Place) (m : M A) : Prop :=
  forall w, sound_bound w ->
    sound_bound (snd (m w)) /\ seen (snd (m w)) p = seen w p.

(** An update of the element [el] that leaves the place [p] as it is. *)
Definition leaves (p : Place) (el : string) (g : Element -> Element) : Prop :=
  match p with
  | StyleVar _ => True
  | DataAttr el' key =>
      el' = el -> forall e, dataset (g e) !! key = dataset e !! key
  | ClassName el' name =>
      el' = el ->
      forall e, bool_decide (name ∈ classList (g e)) = bool_decide (name ∈ classList e)
  | SrcAttr el' => el' = el -> forall e, src (g e) = src e
  end.

(** * Properties *)

(** ** The order on numbers *)

Lemma num_leb_not_NaN x y : num_leb x y = true -> isNaN x = false /\ isNaN y = false.
Proof. destruct x, y; simpl; intros H; try discriminate; auto. Qed.

Lemma num_leb_refl x : isNaN x = false -> num_leb x x = true.
Proof.
  destruct x; simpl; intros H; try discriminate; auto.
  apply bool_decide_eq_true. apply Qcle_refl.
Qed.

Lemma num_ltb_leb x y : num_ltb x y = true -> num_leb x y = true.
Proof.
  destruct x, y; simpl; intros H; try discriminate; auto.
  apply bool_decide_eq_true. apply bool_decide_eq_true in H.
  now apply Qclt_le_weak.
Qed.

Lemma num_ltb_false_leb x y :
  isNaN x = false -> isNaN y = false -> num_ltb x y = false -> num_leb y x = true.
Proof.
  destruct x, y; simpl; intros Hx Hy H; try discriminate; auto.
  apply bool_decide_eq_true. apply bool_decide_eq_false in H.
  now apply Qcnot_lt_le.
Qed.

Lemma num_leb_trans x y z :
  num_leb x y = true -> num_leb y z = true -> num_leb x z = true.
Proof.
  destruct x, y, z; simpl; intros H1 H2; try discriminate; auto.
  apply bool_decide_eq_true. apply bool_decide_eq_true in H1, H2.
  eapply Qcle_trans; eauto.
Qed.

Lemma Math_max_lower x lo :
  isNaN x = false -> isNaN lo = false ->
  isNaN (Math_max x lo) = false /\ num_leb lo (Math_max x lo) = true /\
  num_leb x (Math_max x lo) = true.
Proof.
  intros Hx Hlo. unfold Math_max. rewrite Hx, Hlo. simpl.
  destruct (num_ltb x lo) eqn:E.
  - auto using num_leb_refl, num_ltb_leb.
  - auto using num_leb_refl, num_ltb_false_leb.
Qed.

Lemma Math_max_cases x lo :
  isNaN x = false -> isNaN lo = false ->
  (Math_max x lo = lo /\ num_leb x lo = true) \/
  (Math_max x lo = x /\ num_leb lo x = true).
Proof.
  intros Hx Hlo. unfold Math_max. rewrite Hx, Hlo. simpl.
  destruct (num_ltb x lo) eqn:E.
  - left. auto using num_ltb_leb.
  - right. auto using num_ltb_false_leb.
Qed.

Lemma clamp_in_range x lo hi :
  isNaN x = false -> num_leb lo hi = true ->
  in_range lo hi (Math_min (Math_max x lo) hi) = true.
Proof.
  intros Hx Hle. destruct (num_leb_not_NaN _ _ Hle) as [Hlo Hhi].
  destruct (Math_max_lower x lo Hx Hlo) as (Hm & Hlm & _).
  unfold in_range, Math_min. rewrite Hm, Hhi. simpl.
  destruct (num_ltb hi (Math_max x lo)) eqn:E.
  - rewrite Hle. simpl. now apply num_leb_refl.
  - rewrite Hlm. simpl. now apply num_ltb_false_leb.
Qed.

Lemma clamp_not_NaN x lo hi :
  isNaN x = false -> num_leb lo hi = true ->
  isNaN (Math_min (Math_max x lo) hi) = false.
Proof.
  intros Hx Hle. pose proof (clamp_in_range x lo hi Hx Hle) as H.
  unfold in_range in H. apply andb_true_iff in H as [H _].
  now apply num_leb_not_NaN in H.
Qed.

(** ** The numeric clamp parser *)

Lemma parseNumber_fallback value fallback min max :
  isNaN (parseFloat value) = true -> parseNumber value fallback min max = fallback.
Proof. unfold parseNumber. now intros ->. Qed.

Lemma parseNumber_in_range value fallback min max :
  num_leb min max = true ->
  isNaN (parseFloat value) = false ->
  in_range min max (parseNumber value fallback min max) = true.
Proof.
  intros Hle Hv. unfold parseNumber. rewrite Hv. now apply clamp_in_range.
Qed.

Lemma parseNumber_total_range value fallback min max :
  in_range min max fallback = true ->
  in_range min max (parseNumber value fallback min max) = true.
Proof.
  intros Hfb. destruct (isNaN (parseFloat value)) eqn:E.
  - now rewrite parseNumber_fallback.
  - apply parseNumber_in_range; auto.
    unfold in_range in Hfb. apply andb_true_iff in Hfb as [H1 H2].
    eapply num_leb_trans; eauto.
Qed.

(** C1. The numeric clamp parser: whenever [min <= max], an input that
    parses gives a number within [[min, max]], and an input that does not
    parse gives the fallback as it is.  For every numeric setting of the
    script and every configuration, the derived number lies within the
    setting's range, and is the setting's fallback when the configured
    value does not parse; that fallback is the key's entry in the default
    table. *)
Theorem parseNumber_clamps_or_falls_back :
  (forall value fallback min max,
      num_leb min max = true ->
      (isNaN (parseFloat value) = false ->
       in_range min max (parseNumber value fallback min max) = true) /\
      (isNaN (parseFloat value) = true ->
       parseNumber value fallback min max = fallback)) /\
  Forall (fun '(key, fallback, min, max) =>
            forall fields : gmap string JSValue,
              let configured := config_get fields key VUndefined in
              let result := parseNumber configured fallback min max in
              in_range min max result = true /\
              (isNaN (parseFloat configured) = true -> result = fallback) /\
              get_prop DEFAULTS key = VNum fallback)
         numeric_settings.
Proof.
  split.
  - intros value fallback min max Hle. split.
    + now apply parseNumber_in_range.
    + apply parseNumber_fallback.
  - unfold numeric_settings.
    repeat (apply Forall_cons; split;
            [ cbv beta iota; intros fields; split; [|split];
              [ apply parseNumber_total_range; vm_compute; reflexivity
              | apply parseNumber_fallback
              | vm_compute; reflexivity ] | ]).
    constructor.
Qed.

Lemma parseNumber_clamps_or_falls_back_witness :
  num_leb (lit 0) (lit 1) = true /\
  in_range (lit 0) (lit 1) (parseNumber (VNum (lit 2)) (lit 0.8) (lit 0) (lit 1)) = true /\
  parseNumber (VStr "loud") (lit 0.8) (lit 0) (lit 1) = lit 0.8.
Proof.
  assert (H : num_leb (lit 0) (lit 1) = true) by (vm_compute; reflexivity).
  split; [exact H|].
  split.
  - apply (proj1 parseNumber_clamps_or_falls_back (VNum (lit 2)) (lit 0.8) (lit 0) (lit 1) H).
    vm_compute; reflexivity.
  - apply (proj1 parseNumber_clamps_or_falls_back (VStr "loud") (lit 0.8) (lit 0) (lit 1) H).
    vm_compute; reflexivity.
Defined.

(** ** The field accessor *)

Lemma get_prop_own (fields : gmap string JSValue) key v :
  fields !! key = Some v -> get_prop fields key = v.
Proof. unfold get_prop. now intros ->. Qed.

Lemma get_prop_missing (fields : gmap string JSValue) key :
  fields !! key = None -> inherited key = false -> get_prop fields key = VUndefined.
Proof. unfold get_prop. now intros -> ->. Qed.

Lemma get_prop_inherited (fields : gmap string JSValue) key :
  fields !! key = None -> inherited key = true -> get_prop fields key = VBuiltin key.
Proof. unfold get_prop. now intros -> ->. Qed.

Lemma getField_string (fields : gmap string JSValue) key fallback s :
  fields !! key = Some (VStr s) ->
  getField fields key fallback =
  if String.eqb (trim s) "" then fallback else VStr (trim s).
Proof.
  unfold getField, get_prop. intros ->. simpl. destruct s as [|c r]; reflexivity.
Qed.

(** C7, as the script has it.  The field accessor gives the fallback when
    the map has no entry for the key and the key names nothing that objects
    inherit, or when the entry is [undefined], [null] or the empty string;
    a string is given trimmed, and the fallback when nothing is left of it;
    a boolean, a number or a built-in is given as it is.  For a key the map
    does not hold and objects inherit, it gives the inherited member.  It
    is a total function: no lookup raises. *)
Theorem getField_contract (fields : gmap string JSValue) (key : string)
    (fallback : JSValue) :
  (fields !! key = None -> inherited key = false ->
   getField fields key fallback = fallback) /\
  (fields !! key = None -> inherited key = true ->
   getField fields key fallback = VBuiltin key) /\
  (forall v, fields !! key = Some v ->
             v = VUndefined \/ v = VNull \/ v = VStr "" ->
             getField fields key fallback = fallback) /\
  (forall s, fields !! key = Some (VStr s) ->
             getField fields key fallback =
             if String.eqb (trim s) "" then fallback else VStr (trim s)) /\
  (forall v, fields !! key = Some v ->
             (exists b, v = VBool b) \/ (exists n, v = VNum n) \/
             (exists o, v = VBuiltin o) ->
             getField fields key fallback = v).
Proof.
  split; [|split; [|split; [|split]]].
  - intros Hk Hi. unfold getField. now rewrite (get_prop_missing _ _ Hk Hi).
  - intros Hk Hi. unfold getField. now rewrite (get_prop_inherited _ _ Hk Hi).
  - intros v Hk Hv. unfold getField. rewrite (get_prop_own _ _ _ Hk).
    destruct Hv as [-> | [-> | ->]]; reflexivity.
  - intros s Hs. now apply (getField_string fields key fallback s).
  - intros v Hk Hv. unfold getField. rewrite (get_prop_own _ _ _ Hk).
    destruct Hv as [[b ->] | [[n ->] | [o ->]]]; simpl; try reflexivity.
Qed.

Lemma getField_contract_witness :
  getField {["shape" := VStr "  star "; "size" := VNum (lit 5); "blank" := VStr "   "]}
    "missing" (VStr "fb") = VStr "fb" /\
  getField {["shape" := VStr "  star "; "size" := VNum (lit 5); "blank" := VStr "   "]}
    "toString" (VStr "fb") = VBuiltin "toString" /\
  getField {["shape" := VStr "  star "; "size" := VNum (lit 5); "blank" := VStr "   "]}
    "shape" (VStr "fb") = VStr "star" /\
  getField {["shape" := VStr "  star "; "size" := VNum (lit 5); "blank" := VStr "   "]}
    "blank" (VStr "fb") = VStr "fb" /\
  getField {["shape" := VStr "  star "; "size" := VNum (lit 5); "blank" := VStr "   "]}
    "size" (VStr "fb") = VNum (lit 5).
Proof.
  pose (fields := ({["shape" := VStr "  star "; "size" := VNum (lit 5);
                     "blank" := VStr "   "]} : gmap string JSValue)).
  pose proof (getField_contract fields "missing" (VStr "fb")) as (H1 & _).
  pose proof (getField_contract fields "toString" (VStr "fb")) as (_ & H2 & _).
  pose proof (getField_contract fields "shape" (VStr "fb")) as (_ & _ & _ & H3 & _).
  pose proof (getField_contract fields "blank" (VStr "fb")) as (_ & _ & _ & H4 & _).
  pose proof (getField_contract fields "size" (VStr "fb")) as (_ & _ & _ & _ & H5).
  split; [|split; [|split; [|split]]].
  - apply H1; vm_compute; reflexivity.
  - apply H2; vm_compute; reflexivity.
  - apply (H3 "  star "). vm_compute; reflexivity.
  - apply (H4 "   "). vm_compute; reflexivity.
  - apply (H5 (VNum (lit 5))).
    + vm_compute; reflexivity.
    + right. left. exists (lit 5). reflexivity.
Defined.

(** C7, as stated, fails: the empty map has no entry for [constructor], and
    the accessor gives the constructor that objects inherit, not the
    fallback. *)
Lemma getField_inherited_key_counterexample :
  (∅ : gmap string JSValue) !! "constructor" = None /\
  getField ∅ "constructor" (VStr "fb") = VBuiltin "constructor" /\
  getField ∅ "constructor" (VStr "fb") <> VStr "fb".
Proof.
  split; [reflexivity|]. split; [vm_compute; reflexivity|].
  vm_compute. discriminate.
Qed.

(** ** Numeric prefixes *)



Lemma append_cons c r s : String c r ++ s = String c (r ++ s).
Proof. reflexivity. Qed.

Lemma append_nil_l s : "" ++ s = s.
Proof. reflexivity. Qed.

Lemma append_nil_r s : s ++ "" = s.
Proof.
  induction s as [|c r IH]; [reflexivity|]. now rewrite append_cons, IH.
Qed.

Lemma span_digits_stop acc n rest :
  match rest with
  | String c _ => digit_of c = None
  | EmptyString => True
  end ->
  span_digits acc n rest = (acc, n, rest).
Proof. destruct rest as [|c r]; simpl; [reflexivity|]. now intros ->. Qed.

Lemma span_digits_app ds : forall acc n rest,
  all_digits ds = true ->
  match rest with
  | String c _ => digit_of c = None
  | EmptyString => True
  end ->
  span_digits acc n (ds ++ rest) =
  (fst (fst (span_digits acc n ds)), (n + String.length ds)%nat, rest).
Proof.
  induction ds as [|c r IH]; intros acc n rest Hd Hrest.
  - rewrite append_nil_l, span_digits_stop by assumption. simpl.
    now rewrite Nat.add_0_r.
  - rewrite append_cons. simpl. simpl in Hd. apply andb_true_iff in Hd as [Hc Hr].
    apply bool_decide_eq_true in Hc. destruct Hc as [d Hc]. rewrite Hc.
    rewrite IH by assumption. f_equal. f_equal. lia.
Qed.

Lemma span_digits_all ds acc n :
  all_digits ds = true ->
  span_digits acc n ds =
  (fst (fst (span_digits acc n ds)), (n + String.length ds)%nat, "").
Proof.
  intros Hd. pose proof (span_digits_app ds acc n "" Hd I) as H.
  now rewrite append_nil_r in H.
Qed.










(** ** Running the managers *)

Ltac run_M :=
  cbv beta iota zeta delta
    [exec mbind mret M_bind M_ret gets modify throw try_catch emit defer
     update_element query setVar assign_src for_each repeat_M
     ConfigManager_get ConfigManager_init
     with_document with_rootStyle with_ConfigManager_fields
     with_ImageRenderer_element with_ImageRenderer_fallbackSrc
     with_AudioManager_element with_AccessibilityManager_element
     with_effects with_pending
     customFields animeLoaded playRejects resolveURL document rootStyle
     ConfigManager_fields ImageRenderer_element ImageRenderer_fallbackSrc
     AudioManager_element AccessibilityManager_element effects pending
     fst snd String.append];
  repeat match goal with
         | |- context [digit_string ?n] =>
             let s := eval vm_compute in (digit_string n) in
             change (digit_string n) with s
         end.

Ltac run_with H := repeat (progress (run_M; rewrite ?H)).

Lemma num_leb_antisym x y : num_leb x y = true -> num_leb y x = true -> x = y.
Proof.
  destruct x, y; simpl; intros H1 H2; try discriminate; auto.
  apply bool_decide_eq_true in H1, H2. f_equal. now apply Qcle_antisym.
Qed.

Lemma Math_max_of_le x y : num_leb x y = true -> Math_max x y = y.
Proof.
  intros H. destruct (num_leb_not_NaN _ _ H) as [Hx Hy].
  unfold Math_max. rewrite Hx, Hy. simpl.
  destruct (num_ltb x y) eqn:E; [reflexivity|].
  apply num_leb_antisym; [assumption|]. now apply num_ltb_false_leb.
Qed.

Lemma Math_max_of_ge x y : num_leb y x = true -> Math_max x y = x.
Proof.
  intros H. destruct (num_leb_not_NaN _ _ H) as [Hy Hx].
  unfold Math_max. rewrite Hx, Hy. simpl.
  destruct (num_ltb x y) eqn:E; [|reflexivity].
  apply num_leb_antisym; [assumption|]. now apply num_ltb_leb.
Qed.

Lemma in_range_finite lo hi r :
  in_range (Finite lo) (Finite hi) r = true ->
  exists a, r = Finite a /\ (lo <= a)%Qc /\ (a <= hi)%Qc.
Proof.
  unfold in_range. intros H. apply andb_true_iff in H as [H1 H2].
  destruct r; simpl in *; try discriminate.
  apply bool_decide_eq_true in H1, H2. eauto.
Qed.

Ltac qc_to_q :=
  unfold Qcle, Qclt, Qcdiv, Qcmult, Qcinv, Qcminus, Qcplus, Qcopp in *;
  cbn [this Q2Qc] in *; rewrite ?Qred_correct in *;
  change (/ 2)%Q with (1 # 2)%Q in *.

Lemma half_finite a : num_div (Finite a) (lit 2) = Finite (a / Q2Qc 2)%Qc.
Proof. reflexivity. Qed.

Lemma half_at_least_2 (a : Qc) : (Q2Qc 4 <= a)%Qc -> (Q2Qc 2 <= a / Q2Qc 2)%Qc.
Proof. intros H. qc_to_q. lra. Qed.

Lemma half_at_most_2 (a : Qc) : (a <= Q2Qc 4)%Qc -> (a / Q2Qc 2 <= Q2Qc 2)%Qc.
Proof. intros H. qc_to_q. lra. Qed.

Lemma inset_below (a : Qc) : (a - Q2Qc 8 <= a)%Qc.
Proof. qc_to_q. lra. Qed.

Lemma inset_nonneg (a : Qc) : (Q2Qc 8 <= a)%Qc -> (Q2Qc 0 <= a - Q2Qc 8)%Qc.
Proof. intros H. qc_to_q. lra. Qed.

Lemma inset_nonpos (a : Qc) : (a <= Q2Qc 8)%Qc -> (a - Q2Qc 8 <= Q2Qc 0)%Qc.
Proof. intros H. qc_to_q. lra. Qed.

(** C6. [ThemeManager.applyAvatarSize] writes as the ring's visual width
    half the ring offset, the offset being the configured value clamped to
    [[2, 30]], and never less than 2: it is the half from an offset of 4 up,
    and 2 below; a configured [avatarRingWidth] of 2 gives 2, not 1. *)
Theorem avatar_ring_width_half_floored (w : World) :
  let fields := ConfigManager_fields w in
  let ringWidth :=
    parseNumber (config_get fields "avatarRingWidth" VUndefined)
      (lit 10) (lit 2) (lit 30) in
  let visual := Math_max (lit 2) (num_div ringWidth (lit 2)) in
  let style := rootStyle (exec ThemeManager_applyAvatarSize w) in
  style !! "--avatar-ring-offset" = Some (px ringWidth) /\
  style !! "--avatar-ring-width" = Some (px visual) /\
  in_range (lit 2) (lit 30) ringWidth = true /\
  num_leb (lit 2) visual = true /\
  (num_leb (lit 4) ringWidth = true -> visual = num_div ringWidth (lit 2)) /\
  (num_leb ringWidth (lit 4) = true -> visual = lit 2) /\
  (fields !! "avatarRingWidth" = Some (VNum (lit 2)) -> visual = lit 2).
Proof.
  intros fields ringWidth visual style.
  assert (Hr : in_range (lit 2) (lit 30) ringWidth = true).
  { apply parseNumber_total_range. vm_compute; reflexivity. }
  destruct (in_range_finite _ _ _ Hr) as (a & Ha & Hlo & Hhi).
  assert (Hsmall : num_leb ringWidth (lit 4) = true -> visual = lit 2).
  { subst visual. rewrite Ha, half_finite. simpl. intros H.
    apply bool_decide_eq_true in H. apply Math_max_of_ge. simpl.
    apply bool_decide_eq_true. now apply half_at_most_2. }
  split; [|split; [|split; [|split; [|split; [|split]]]]].
  - subst style. unfold ThemeManager_applyAvatarSize. run_M.
    rewrite lookup_insert_ne by discriminate. now rewrite lookup_insert_eq.
  - subst style. unfold ThemeManager_applyAvatarSize. run_M.
    now rewrite lookup_insert_eq.
  - exact Hr.
  - subst visual. rewrite Ha, half_finite.
    destruct (Math_max_lower (lit 2) (Finite (a / Q2Qc 2)%Qc)) as (_ & _ & H);
      auto.
  - subst visual. rewrite Ha, half_finite. simpl. intros H.
    apply bool_decide_eq_true in H. apply Math_max_of_le. simpl.
    apply bool_decide_eq_true. now apply half_at_least_2.
  - exact Hsmall.
  - intros Hf. apply Hsmall. subst ringWidth.
    unfold config_get, getField, get_prop. rewrite Hf. vm_compute. reflexivity.
Qed.

(** The table of numeric settings is the script's: each numeric style
    variable a manager writes holds the number derived for its key. *)
Lemma numeric_settings_written (w : World) :
  let n := numeric_setting (ConfigManager_fields w) in
  let size := rootStyle (exec ThemeManager_applyContainerSize w) in
  let avatar := rootStyle (exec ThemeManager_applyAvatarSize w) in
  let animation := rootStyle (exec ThemeManager_applyAnimation w) in
  let typography := rootStyle (exec ThemeManager_applyTypography w) in
  let shadow := rootStyle (exec EffectsManager_applyDropShadow w) in
  (size !! "--container-width" = Some (px (n "containerWidth")) /\
   size !! "--container-height" = Some (px (n "containerHeight")) /\
   size !! "--container-radius-outer" = Some (px (n "containerBorderRadius")) /\
   size !! "--outline-width" = Some (px (n "containerOutlineWidth"))) /\
  (avatar !! "--avatar-size" = Some (px (n "avatarSize")) /\
   avatar !! "--avatar-ring-offset" = Some (px (n "avatarRingWidth"))) /\
  (animation !! "--sway-angle"
     = Some [Interp (VNum (n "rotationAngle")); Text "deg"] /\
   animation !! "--sway-duration"
     = Some [Interp (VNum (n "rotationSpeed")); Text "s"] /\
   animation !! "--ring-spin-duration"
     = Some [Interp (VNum (n "ringSpinSpeed")); Text "s"]) /\
  (typography !! "--text-scale" = Some [Interp (VNum (n "textScale"))] /\
   typography !! "--text-shadow-blur" = Some (px (n "textShadowBlur")) /\
   typography !! "--letter-spacing"
     = Some [Interp (VNum (n "letterSpacing")); Text "em"]) /\
  (shadow !! "--drop-shadow-x" = Some (px (n "dropShadowOffsetX")) /\
   shadow !! "--drop-shadow-y" = Some (px (n "dropShadowOffsetY")) /\
   shadow !! "--drop-shadow-blur" = Some (px (n "dropShadowBlur")) /\
   shadow !! "--drop-shadow-opacity"
     = Some [Interp (VNum (n "dropShadowOpacity"))]) /\
  rootStyle (exec EffectsManager_applyGlow w) !! "--glow-intensity"
    = Some (px (n "glowIntensity")) /\
  rootStyle (exec EffectsManager_applyAnimationToggles w) !! "--gradient-duration"
    = Some [Interp (VNum (n "gradientAnimationSpeed")); Text "s"] /\
  (is_Some (document w !! ".alert-frame") ->
   rootStyle (exec ShapeManager_apply w) !! "--shape-padding"
     = Some (px (n "shapePadding"))).
Proof.
  intros n size avatar animation typography shadow.
  subst size avatar animation typography shadow.
  unfold ThemeManager_applyContainerSize, ThemeManager_applyAvatarSize,
    ThemeManager_applyAnimation, ThemeManager_applyTypography,
    EffectsManager_applyDropShadow, EffectsManager_applyGlow,
    EffectsManager_applyAnimationToggles, ShapeManager_apply.
  destruct w as [cf al pr ru d rs f ie ifb ae xe ef pd]. cbn in n.
  repeat split;
    try (run_M; rewrite ?lookup_insert_ne by discriminate;
         rewrite lookup_insert_eq; reflexivity).
  - run_M. destruct (d !! ".alert-frame"); run_M;
      rewrite ?lookup_insert_ne by discriminate;
      rewrite lookup_insert_eq; reflexivity.
  - run_M. destruct (d !! ".alert-frame"); destruct (d !! ".alert-avatar-ring");
      run_M; rewrite ?lookup_insert_ne by discriminate;
      rewrite lookup_insert_eq; reflexivity.
  - intros [frame Hframe]. cbn in Hframe. run_with Hframe.
    destruct (negb _); destruct (_ !! ".alert-avatar-wrapper"); run_M;
      rewrite ?lookup_insert_ne by discriminate;
      rewrite lookup_insert_eq; reflexivity.
Qed.

Lemma avatar_ring_width_half_floored_witness :
  Math_max (lit 2)
    (num_div
       (parseNumber
          (config_get
             (ConfigManager_fields
                (exec ConfigManager_init
                   (page (Some {["avatarRingWidth" := VNum (lit 2)]}) true None ∅)))
             "avatarRingWidth" VUndefined)
          (lit 10) (lit 2) (lit 30))
       (lit 2)) = lit 2.
Proof.
  pose proof (avatar_ring_width_half_floored
                (exec ConfigManager_init
                   (page (Some {["avatarRingWidth" := VNum (lit 2)]}) true None ∅)))
    as H.
  cbv zeta in H. destruct H as (_ & _ & _ & _ & _ & _ & H).
  apply H. vm_compute. reflexivity.
Defined.

Lemma inset_finite a : num_sub (Finite a) (lit 8) = Finite (a - Q2Qc 8)%Qc.
Proof. reflexivity. Qed.

(** C10. [ThemeManager.applyContainerSize] writes as inner corner radius
    [max(0, r - 8)], [r] being the configured radius clamped to [[0, 100]]
    and written as the outer radius: the inner radius is never negative,
    never above the outer one, the outer one less 8 from a radius of 8 up,
    and 0 for a radius of 0. *)
Theorem container_inner_radius_inset (w : World) :
  let fields := ConfigManager_fields w in
  let r :=
    parseNumber (config_get fields "containerBorderRadius" VUndefined)
      (lit 42) (lit 0) (lit 100) in
  let inner := Math_max (lit 0) (num_sub r (lit 8)) in
  let style := rootStyle (exec ThemeManager_applyContainerSize w) in
  style !! "--container-radius-outer" = Some (px r) /\
  style !! "--container-radius-inner" = Some (px inner) /\
  in_range (lit 0) (lit 100) r = true /\
  num_leb (lit 0) inner = true /\
  num_leb inner r = true /\
  (num_leb (lit 8) r = true -> inner = num_sub r (lit 8)) /\
  (num_leb r (lit 8) = true -> inner = lit 0) /\
  (fields !! "containerBorderRadius" = Some (VNum (lit 0)) -> inner = lit 0).
Proof.
  intros fields r inner style.
  assert (Hr : in_range (lit 0) (lit 100) r = true).
  { apply parseNumber_total_range. vm_compute; reflexivity. }
  destruct (in_range_finite _ _ _ Hr) as (a & Ha & Hlo & Hhi).
  assert (Hsmall : num_leb r (lit 8) = true -> inner = lit 0).
  { subst inner. rewrite Ha, inset_finite. simpl. intros H.
    apply bool_decide_eq_true in H. apply Math_max_of_ge. simpl.
    apply bool_decide_eq_true. now apply inset_nonpos. }
  split; [|split; [|split; [|split; [|split; [|split; [|split]]]]]].
  - subst style. unfold ThemeManager_applyContainerSize. run_M.
    rewrite !lookup_insert_ne by discriminate. now rewrite lookup_insert_eq.
  - subst style. unfold ThemeManager_applyContainerSize. run_M.
    rewrite !lookup_insert_ne by discriminate. now rewrite lookup_insert_eq.
  - exact Hr.
  - subst inner. rewrite Ha, inset_finite.
    destruct (Math_max_lower (lit 0) (Finite (a - Q2Qc 8)%Qc)) as (_ & _ & H);
      auto.
  - subst inner. rewrite Ha, inset_finite.
    destruct (Math_max_cases (lit 0) (Finite (a - Q2Qc 8)%Qc)) as [[-> _] | [-> _]];
      auto; simpl; apply bool_decide_eq_true; [apply inset_below | exact Hlo].
  - subst inner. rewrite Ha, inset_finite. simpl. intros H.
    apply bool_decide_eq_true in H. apply Math_max_of_le. simpl.
    apply bool_decide_eq_true. now apply inset_nonneg.
  - exact Hsmall.
  - intros Hf. apply Hsmall. subst r.
    unfold config_get, getField, get_prop. rewrite Hf. vm_compute. reflexivity.
Qed.

Lemma container_inner_radius_inset_witness :
  Math_max (lit 0)
    (num_sub
       (parseNumber
          (config_get
             (ConfigManager_fields
                (exec ConfigManager_init
                   (page (Some {["containerBorderRadius" := VNum (lit 0)]}) true None ∅)))
             "containerBorderRadius" VUndefined)
          (lit 42) (lit 0) (lit 100))
       (lit 8)) = lit 0.
Proof.
  pose proof (container_inner_radius_inset
                (exec ConfigManager_init
                   (page (Some {["containerBorderRadius" := VNum (lit 0)]}) true None ∅)))
    as H.
  cbv zeta in H. destruct H as (_ & _ & _ & _ & _ & _ & _ & H).
  apply H. vm_compute. reflexivity.
Defined.

(** ** Enable flags *)

Lemma strict_eq_string v s : strict_eq v (VStr s) = bool_decide (v = VStr s).
Proof.
  destruct v as [| |b|n|t|o]; simpl; try reflexivity.
  destruct (String.eqb_spec t s) as [->|Hne].
  - symmetry. now apply bool_decide_eq_true.
  - symmetry. apply bool_decide_eq_false. congruence.
Qed.

Lemma getField_empty fields key fallback :
  entry_empty fields key = true -> getField fields key fallback = fallback.
Proof.
  unfold entry_empty, getField.
  destruct (get_prop fields key) as [| |b|n|s|o]; simpl; try discriminate; auto.
  intros ->. now destruct s.
Qed.

Lemma getField_given fields key fallback :
  entry_empty fields key = false ->
  getField fields key fallback =
  match get_prop fields key with VStr s => VStr (trim s) | v => v end.
Proof.
  unfold entry_empty, getField.
  destruct (get_prop fields key) as [| |b|n|s|o]; simpl; try discriminate;
    intros H; try reflexivity.
  rewrite H. destruct s; [discriminate H | reflexivity].
Qed.

Lemma get_prop_string (fields : gmap string JSValue) key s :
  get_prop fields key = VStr s <-> fields !! key = Some (VStr s).
Proof.
  unfold get_prop. destruct (fields !! key) as [v|].
  - split; congruence.
  - destruct (inherited key); split; discriminate.
Qed.

Lemma flag_resolution fields key fb :
  config_get fields key (VStr fb) = VStr "true" <->
  (exists s, fields !! key = Some (VStr s) /\ trim s = "true") \/
  (entry_empty fields key = true /\ fb = "true").
Proof.
  unfold config_get. cbn [nullish].
  destruct (entry_empty fields key) eqn:E.
  - rewrite (getField_empty _ _ _ E). split.
    + intros [= ->]. right. auto.
    + intros [(s & Hs & Ht) | [_ ->]]; [|reflexivity].
      apply get_prop_string in Hs.
      unfold entry_empty in E. rewrite Hs, Ht in E. discriminate.
  - rewrite (getField_given fields key (VStr fb) E). split.
    + destruct (get_prop fields key) as [| |b|n|s|o] eqn:Hv; try discriminate.
      intros [= Ht]. left. exists s. split; [|exact Ht].
      now apply get_prop_string.
    + intros [(s & Hs & Ht) | [? _]]; [|discriminate].
      apply get_prop_string in Hs. now rewrite Hs, Ht.
Qed.

Lemma toggle_class_same name force e :
  name ∈ classList (toggle_class name force e) <-> force = true.
Proof.
  destruct force; cbn.
  - rewrite elem_of_union, elem_of_singleton. intuition.
  - rewrite elem_of_difference, elem_of_singleton. intuition congruence.
Qed.

Lemma toggle_class_other name name' force e :
  name <> name' ->
  name ∈ classList (toggle_class name' force e) <-> name ∈ classList e.
Proof.
  intros Hne. destruct force; cbn.
  - rewrite elem_of_union, elem_of_singleton. intuition.
  - rewrite elem_of_difference, elem_of_singleton. intuition.
Qed.


(** C9. Each enable flag is on exactly when the value the field accessor
    resolves for it is the string ["true"]: the drop shadow and glow
    variables are ["1"] then and ["0"] otherwise, the glow class is on the
    frame exactly then, and the classes that switch sway, ring spin and the
    gradient animation off are present exactly otherwise.  The resolved
    value is ["true"] when the entry is a string that trims to ["true"], or
    when the entry is not given and the flag's default is ["true"]; the
    boolean [true], ["TRUE"], ["yes"] and numbers are not. *)
Theorem enable_flags_strict (w : World) :
  let fields := ConfigManager_fields w in
  let on key fb := bool_decide (config_get fields key (VStr fb) = VStr "true") in
  rootStyle (exec EffectsManager_applyDropShadow w) !! "--drop-shadow-enabled"
    = Some (flag (on "dropShadowEnabled" "true")) /\
  rootStyle (exec EffectsManager_applyGlow w) !! "--glow-enabled"
    = Some (flag (on "glowEnabled" "false")) /\
  (forall frame, document w !! ".alert-frame" = Some frame ->
     ("alert-frame--glow" ∈ classes_of (exec EffectsManager_applyGlow w) ".alert-frame"
        <-> on "glowEnabled" "false" = true) /\
     ("alert-frame--no-sway"
        ∈ classes_of (exec EffectsManager_applyAnimationToggles w) ".alert-frame"
        <-> on "enableSway" "true" = false) /\
     ("alert-frame--no-gradient-animation"
        ∈ classes_of (exec EffectsManager_applyAnimationToggles w) ".alert-frame"
        <-> on "enableGradientAnimation" "true" = false)) /\
  (forall ring, document w !! ".alert-avatar-ring" = Some ring ->
     ("alert-avatar-ring--no-spin"
        ∈ classes_of (exec EffectsManager_applyAnimationToggles w) ".alert-avatar-ring"
        <-> on "enableRingSpin" "true" = false)) /\
  (forall key fb,
     on key fb = true <->
     (exists s, fields !! key = Some (VStr s) /\ trim s = "true") \/
     (entry_empty fields key = true /\ fb = "true")) /\
  (forall key fb v,
     fields !! key = Some v ->
     v = VBool true \/ v = VStr "TRUE" \/ v = VStr "yes" \/ (exists n, v = VNum n) ->
     on key fb = false).
Proof.
  intros fields on.
  split; [|split; [|split; [|split; [|split]]]].
  - unfold EffectsManager_applyDropShadow. run_M.
    rewrite !lookup_insert_ne by discriminate. rewrite lookup_insert_eq.
    now rewrite strict_eq_string.
  - unfold EffectsManager_applyGlow. run_M.
    destruct (_ !! ".alert-frame"); run_M;
      rewrite !lookup_insert_ne by discriminate; rewrite lookup_insert_eq;
      now rewrite strict_eq_string.
  - intros frame Hframe. unfold classes_of. split; [|split].
    + unfold EffectsManager_applyGlow. destruct w. cbn in Hframe, fields.
      run_with Hframe. rewrite lookup_alter_eq, Hframe. cbn [fmap option_fmap option_map].
      rewrite toggle_class_same, strict_eq_string. reflexivity.
    + unfold EffectsManager_applyAnimationToggles. destruct w.
      cbn in Hframe, fields. run_with Hframe.
      destruct (_ !! ".alert-avatar-ring"); run_M;
        rewrite ?lookup_alter_eq, ?(lookup_alter_ne _ _ ".alert-avatar-ring") by discriminate;
        rewrite ?lookup_alter_eq, Hframe; cbn [fmap option_fmap option_map];
        rewrite toggle_class_other by discriminate;
        rewrite toggle_class_same, strict_eq_string, negb_true_iff; reflexivity.
    + unfold EffectsManager_applyAnimationToggles. destruct w.
      cbn in Hframe, fields. run_with Hframe.
      destruct (_ !! ".alert-avatar-ring"); run_M;
        rewrite ?lookup_alter_eq, ?(lookup_alter_ne _ _ ".alert-avatar-ring") by discriminate;
        rewrite ?lookup_alter_eq, Hframe; cbn [fmap option_fmap option_map];
        rewrite toggle_class_same, strict_eq_string, negb_true_iff; reflexivity.
  - intros ring Hring. unfold classes_of.
    unfold EffectsManager_applyAnimationToggles. destruct w.
    cbn in Hring, fields. run_with Hring.
    destruct (_ !! ".alert-frame") eqn:Hframe; run_M;
      rewrite ?(lookup_alter_ne _ _ ".alert-frame") by discriminate;
      rewrite lookup_alter_eq;
      rewrite ?(lookup_alter_ne _ _ ".alert-frame") by discriminate;
      rewrite Hring; cbn [fmap option_fmap option_map];
      rewrite toggle_class_same, strict_eq_string, negb_true_iff; reflexivity.
  - intros key fb. subst on. cbv beta. rewrite bool_decide_eq_true.
    apply flag_resolution.
  - intros key fb v Hv Hcases. subst on. cbv beta. apply bool_decide_eq_false.
    rewrite flag_resolution. intros [(s & Hs & Ht) | [He _]].
    + rewrite Hv in Hs. injection Hs as ->.
      destruct Hcases as [? | [[= ->] | [[= ->] | [n ?]]]]; discriminate.
    + unfold entry_empty in He. rewrite (get_prop_own _ _ _ Hv) in He.
      destruct Hcases as [-> | [-> | [-> | [n ->]]]]; discriminate.
Qed.

Lemma enable_flags_strict_witness :
  bool_decide
    (config_get
       (ConfigManager_fields
          (with_ConfigManager_fields {["glowEnabled" := VBool true]}
             (page None true None ∅)))
       "glowEnabled" (VStr "false") = VStr "true") = false.
Proof.
  pose proof (enable_flags_strict
                (with_ConfigManager_fields {["glowEnabled" := VBool true]}
                   (page None true None ∅))) as H.
  cbv zeta in H. destruct H as (_ & _ & _ & _ & _ & H).
  apply (H "glowEnabled" "false" (VBool true)).
  - vm_compute. reflexivity.
  - left. reflexivity.
Defined.

(** ** The shape selector *)

Lemma config_get_string fields key fb s :
  fields !! key = Some (VStr s) -> trim s <> "" ->
  config_get fields key fb = VStr (trim s).
Proof.
  intros Hf Hne. unfold config_get.
  generalize (nullish fb (get_prop DEFAULTS key)). intros d.
  rewrite (getField_string fields key d s Hf).
  destruct (String.eqb_spec (trim s) "") as [E|E]; [contradiction|].
  reflexivity.
Qed.

(** C5, as the script has it.  With the frame in the page, a shape key
    configured as a string that is not all white space gives the frame the
    trimmed string as its shape selector, whatever the string: a string
    with no white space around it passes through unchanged. *)
Theorem shape_selector_passthrough (w : World) (frame : Element) (s : string) :
  document w !! ".alert-frame" = Some frame ->
  ConfigManager_fields w !! "alertBoxShape" = Some (VStr s) ->
  trim s <> "" ->
  data_of (exec ShapeManager_apply w) ".alert-frame" !! "shape"
    = Some (VStr (trim s)) /\
  (trim s = s ->
   data_of (exec ShapeManager_apply w) ".alert-frame" !! "shape" = Some (VStr s)).
Proof.
  intros Hframe Hshape Hne.
  assert (H : data_of (exec ShapeManager_apply w) ".alert-frame" !! "shape"
              = Some (VStr (trim s))).
  { rewrite <- (config_get_string _ _ (VStr "rounded-rectangle") _ Hshape Hne).
    unfold data_of, ShapeManager_apply. destruct w. cbn in Hframe, Hshape |- *.
    run_with Hframe.
    destruct (negb _); destruct (_ !! ".alert-avatar-wrapper"); run_M;
      rewrite ?(lookup_alter_ne _ _ ".alert-avatar-wrapper") by discriminate;
      rewrite !lookup_alter_eq, Hframe; cbn;
      rewrite ?lookup_insert_ne, ?lookup_delete_ne by discriminate;
      now rewrite lookup_insert_eq. }
  split; [exact H|]. intros E. now rewrite E in H.
Qed.

Lemma shape_selector_passthrough_witness :
  data_of
    (exec ShapeManager_apply
       (with_ConfigManager_fields {["alertBoxShape" := VStr "hexagon"]}
          (page None true None {[".alert-frame" := blank]})))
    ".alert-frame" !! "shape" = Some (VStr "hexagon").
Proof.
  refine (proj1 (shape_selector_passthrough
                   (with_ConfigManager_fields {["alertBoxShape" := VStr "hexagon"]}
                      (page None true None {[".alert-frame" := blank]}))
                   blank "hexagon" _ _ _)).
  - vm_compute. reflexivity.
  - vm_compute. reflexivity.
  - vm_compute. discriminate.
Defined.

(** C5, as stated, fails: the non-empty shape string [" star "] does not
    appear as it is, the frame gets ["star"]; and the non-empty string of
    three spaces gives the default shape. *)
Lemma shape_selector_exact_counterexample :
  " star " <> "" /\
  data_of
    (exec ShapeManager_apply
       (with_ConfigManager_fields {["alertBoxShape" := VStr " star "]}
          (page None true None {[".alert-frame" := blank]})))
    ".alert-frame" !! "shape" = Some (VStr "star") /\
  data_of
    (exec ShapeManager_apply
       (with_ConfigManager_fields {["alertBoxShape" := VStr " star "]}
          (page None true None {[".alert-frame" := blank]})))
    ".alert-frame" !! "shape" <> Some (VStr " star ") /\
  data_of
    (exec ShapeManager_apply
       (with_ConfigManager_fields {["alertBoxShape" := VStr "   "]}
          (page None true None {[".alert-frame" := blank]})))
    ".alert-frame" !! "shape" = Some (VStr "rounded-rectangle").
Proof.
  assert (E : data_of
                (exec ShapeManager_apply
                   (with_ConfigManager_fields {["alertBoxShape" := VStr " star "]}
                      (page None true None {[".alert-frame" := blank]})))
                ".alert-frame" !! "shape" = Some (VStr "star"))
    by (vm_compute; reflexivity).
  split; [discriminate|]. split; [exact E|]. split.
  - rewrite E. discriminate.
  - vm_compute. reflexivity.
Qed.

(** ** Audio playback *)

Lemma AudioManager_play_resolved w sound source :
  AudioManager_element w = Some sound ->
  config_get (ConfigManager_fields w) "alertSound" (VStr "") = source ->
  sound_resolved source = true ->
  AudioManager_play w =
  (Normal tt,
   with_pending
     (pending w ++ match playRejects w with
                   | Some message => [PlayRejected message]
                   | None => []
                   end)
     (with_effects (effects w ++ [LoadSource sound source; PlayRequested sound])
        (with_document
           (alter (sound_ready source
                     (parseNumber
                        (config_get (ConfigManager_fields w) "soundVolume" VUndefined)
                        (lit 0.8) (lit 0) (lit 1)))
                  sound (document w)) w))).
Proof.
  intros Hel Hsrc Hres. unfold AudioManager_play. destruct w.
  cbn in Hel, Hsrc |- *. run_with Hel. rewrite Hsrc.
  destruct source as [| |b|n|s|o]; try discriminate Hres.
  cbn in Hres. apply andb_true_iff in Hres as [Hres H3].
  apply andb_true_iff in Hres as [H1 H2].
  unfold AudioManager_isTokenString. cbn [truthy]. rewrite H1.
  apply negb_true_iff in H2, H3. run_M. rewrite H2, H3. cbn [orb negb]. run_M.
  rewrite !alter_alter_eq. rewrite <- !app_assoc. cbn [app].
  destruct playRejects0; run_M; rewrite ?app_nil_r; reflexivity.
Qed.


Lemma includes_brace_example :
  sound_resolved (VStr "{alertSound}") = false /\
  sound_resolved (VStr "https://example.com/a.mp3") = true /\
  sound_resolved (VStr "") = false.
Proof. repeat split; vm_compute; reflexivity. Qed.



(** ** The image fallback *)

Lemma handleError_on_fallback avatar w :
  shows_fallback avatar w -> ImageRenderer_handleError w = (Normal tt, w).
Proof.
  intros (Hel & e & He & Heq). unfold ImageRenderer_handleError. destruct w.
  cbn in Hel, He, Heq |- *. run_with Hel. rewrite He. run_M.
  unfold read_src in *. cbn in Heq |- *. rewrite Heq. reflexivity.
Qed.

(** What [handleError] does when the source the element reports is not the
    recorded fallback. *)
Lemma handleError_reassigns avatar e w :
  ImageRenderer_element w = Some avatar ->
  document w !! avatar = Some e ->
  strict_eq (read_src w e) (ImageRenderer_fallbackSrc w) = false ->
  ImageRenderer_handleError w =
  (Normal tt,
   with_effects
     (effects w ++
      [ConsoleWarn [Text "[Alert] Image failed to load: ";
                    Interp (read_src w e); Text ", using fallback"];
       LoadSource avatar (ImageRenderer_fallbackSrc w)])
     (with_document
        (alter (set_src (ImageRenderer_fallbackSrc w)) avatar (document w)) w)).
Proof.
  intros Hel He Heq. unfold ImageRenderer_handleError. destruct w.
  cbn in Hel, He, Heq |- *. run_with Hel. rewrite He. run_M.
  unfold read_src in *. cbn in Heq |- *. rewrite Heq. cbn [negb]. run_M.
  rewrite <- app_assoc. reflexivity.
Qed.

Lemma loads_after_reassign avatar msg f g w :
  loads avatar
    (with_effects (effects w ++ [ConsoleWarn msg; LoadSource avatar f])
       (with_document g w))
  = S (loads avatar w).
Proof.
  unfold loads. destruct w. cbn.
  rewrite List.filter_app, length_app. cbn. rewrite String.eqb_refl. cbn. lia.
Qed.

Lemma handleError_step avatar e w :
  ImageRenderer_element w = Some avatar ->
  document w !! avatar = Some e ->
  fallback_reads_back w = true ->
  exists w',
    ImageRenderer_handleError w = (Normal tt, w') /\
    (w' = w \/ (shows_fallback avatar w' /\ loads avatar w' = S (loads avatar w))).
Proof.
  intros Hel He Hself.
  destruct (strict_eq (read_src w e) (ImageRenderer_fallbackSrc w)) eqn:Heq.
  - exists w. split; [|now left].
    apply (handleError_on_fallback avatar). split; eauto.
  - rewrite (handleError_reassigns avatar e w Hel He Heq).
    eexists. split; [reflexivity|]. right. split.
    + split; [destruct w; exact Hel|].
      exists (set_src (ImageRenderer_fallbackSrc w) e). split.
      * destruct w. cbn in He |- *. now rewrite lookup_alter_eq, He.
      * destruct w. exact Hself.
    + apply loads_after_reassign.
Qed.

Section Absorbed.
(** Once the fallback shows, an action that leaves such a page alone
    can be repeated at will; before that it starts at most one load. *)
Variable avatar : string.
Variable m : M unit.

Hypothesis m_on_fallback :
  forall w, shows_fallback avatar w -> m w = (Normal tt, w).
Hypothesis m_step :
  forall w, fallback_ready avatar w ->
            exists w', m w = (Normal tt, w') /\ fallback_settled avatar w w'.

Lemma repeat_on_fallback n w :
  shows_fallback avatar w -> repeat_M n m w = (Normal tt, w).
Proof.
  intros Hw. induction n as [|n IH]; [reflexivity|].
  cbn [repeat_M]. unfold mbind, M_bind. now rewrite (m_on_fallback w Hw).
Qed.

Lemma repeat_step n : forall w,
  fallback_ready avatar w ->
  exists w', repeat_M n m w = (Normal tt, w') /\ fallback_settled avatar w w'.
Proof.
  induction n as [|n IH]; intros w Hw.
  - exists w. split; [reflexivity | now left].
  - destruct (m_step w Hw) as (w1 & Hm & [-> | [Hs Hl]]).
    + destruct (IH w Hw) as (w' & Hr & Hset). exists w'. split; [|exact Hset].
      cbn [repeat_M]. unfold mbind, M_bind. now rewrite Hm.
    + exists w1. split; [|right; auto].
      cbn [repeat_M]. unfold mbind, M_bind. rewrite Hm.
      now apply repeat_on_fallback.
Qed.
End Absorbed.

Lemma avatar_load_failure_unfold w :
  avatar_load_failure w =
  repeat_M (match document w !! "#alert-avatar" with
            | Some e => errorListeners e
            | None => O
            end) ImageRenderer_handleError w.
Proof. reflexivity. Qed.

Lemma handleError_ready_step w :
  fallback_ready "#alert-avatar" w ->
  exists w',
    ImageRenderer_handleError w = (Normal tt, w') /\
    fallback_settled "#alert-avatar" w w'.
Proof.
  intros (Hel & [e He] & Hself). now apply (handleError_step "#alert-avatar" e).
Qed.

Lemma failure_on_fallback w :
  shows_fallback "#alert-avatar" w -> avatar_load_failure w = (Normal tt, w).
Proof.
  intros Hw. rewrite avatar_load_failure_unfold.
  apply (repeat_on_fallback "#alert-avatar"); [|exact Hw].
  apply handleError_on_fallback.
Qed.

Lemma failure_ready_step w :
  fallback_ready "#alert-avatar" w ->
  exists w',
    avatar_load_failure w = (Normal tt, w') /\
    fallback_settled "#alert-avatar" w w'.
Proof.
  intros Hw. rewrite avatar_load_failure_unfold.
  apply (repeat_step "#alert-avatar" ImageRenderer_handleError);
    [apply handleError_on_fallback | apply handleError_ready_step | exact Hw].
Qed.

(** A load failure on a page where the fallback is not reported as it is
    assigned: the source is assigned again, and the page is as before. *)
Lemma failure_unreported_step w :
  fallback_unreported "#alert-avatar" w ->
  exists w',
    avatar_load_failure w = (Normal tt, w') /\
    fallback_unreported "#alert-avatar" w' /\
    loads "#alert-avatar" w' = S (loads "#alert-avatar" w).
Proof.
  intros (Hel & Hback & e & He & Hone & Heq).
  rewrite avatar_load_failure_unfold, He, Hone. cbn [repeat_M].
  unfold mbind, M_bind, mret, M_ret.
  rewrite (handleError_reassigns "#alert-avatar" e w Hel He Heq).
  eexists. split; [reflexivity|]. split; [|apply loads_after_reassign].
  split; [destruct w; exact Hel|]. split; [destruct w; exact Hback|].
  exists (set_src (ImageRenderer_fallbackSrc w) e). split; [|split].
  - destruct w. cbn in He |- *. now rewrite lookup_alter_eq, He.
  - exact Hone.
  - destruct w. exact Hback.
Qed.

Lemma repeat_unreported n : forall w,
  fallback_unreported "#alert-avatar" w ->
  exists w',
    repeat_M n avatar_load_failure w = (Normal tt, w') /\
    fallback_unreported "#alert-avatar" w' /\
    loads "#alert-avatar" w' = (n + loads "#alert-avatar" w)%nat.
Proof.
  induction n as [|n IH]; intros w Hw.
  - exists w. auto.
  - destruct (failure_unreported_step w Hw) as (w1 & Hm & Hw1 & Hl).
    destruct (IH w1 Hw1) as (w' & Hr & Hw' & Hl').
    exists w'. split; [|split; [exact Hw'|lia]].
    cbn [repeat_M]. unfold mbind, M_bind. now rewrite Hm.
Qed.

(** C3, on the script.  The avatar image names its fallback by a file name,
    [data-fallback="fallback.png"], and the page has been initialized.  The
    element reports the fallback under the document's address, never as
    the recorded file name, so the guard lets every load failure through:
    two consecutive failures assign the source twice, and [n] failures [n]
    times. *)
Theorem image_fallback_file_name_reassigned :
  let w := exec init relative_fallback_page in
  ImageRenderer_fallbackSrc w = VStr "fallback.png" /\
  loads "#alert-avatar" w = 0%nat /\
  loads "#alert-avatar" (exec (avatar_load_failure ;; avatar_load_failure) w)
  = 2%nat /\
  forall n,
    loads "#alert-avatar" (exec (repeat_M n avatar_load_failure) w) = n.
Proof.
  cbv zeta. set (W := exec init relative_fallback_page).
  assert (Hw : fallback_unreported "#alert-avatar" W).
  { split; [vm_compute; reflexivity|]. split; [vm_compute; reflexivity|].
    eexists. split; [vm_compute; reflexivity|].
    split; vm_compute; reflexivity. }
  assert (H0 : loads "#alert-avatar" W = 0%nat) by (vm_compute; reflexivity).
  assert (Hn : forall n,
             loads "#alert-avatar" (exec (repeat_M n avatar_load_failure) W) = n).
  { intros n. destruct (repeat_unreported n W Hw) as (w' & Hr & _ & Hl).
    unfold exec. rewrite Hr. cbn [snd]. rewrite Hl, H0. lia. }
  assert (H2 : exec (avatar_load_failure ;; avatar_load_failure) W
               = exec (repeat_M 2 avatar_load_failure) W).
  { vm_compute. reflexivity. }
  split; [vm_compute; reflexivity|]. split; [exact H0|]. split; [|exact Hn].
  rewrite H2. exact (Hn 2%nat).
Qed.

(** ** Reinitialization *)

Lemma same_page_refl w : same_page w w.
Proof. unfold same_page. auto. Qed.

Lemma same_page_trans w1 w2 w3 : same_page w1 w2 -> same_page w2 w3 -> same_page w1 w3.
Proof. unfold same_page. intuition congruence. Qed.

Lemma same_page_sym w1 w2 : same_page w1 w2 -> same_page w2 w1.
Proof. unfold same_page. intuition congruence. Qed.

Lemma same_page_present w1 w2 el :
  same_page w1 w2 -> is_Some (document w1 !! el) <-> is_Some (document w2 !! el).
Proof.
  intros (_ & _ & _ & Hd). rewrite <- !elem_of_dom. now rewrite Hd.
Qed.

Lemma stable_gets {A} (f : World -> A) :
  (forall w1 w2, same_env w1 w2 -> f w1 = f w2) -> stable (gets f).
Proof.
  intros Hf w1 w2 He. cbn. rewrite (Hf w1 w2 He).
  split; [reflexivity|]. split; [exact He|]. split; [apply same_page_refl|].
  intros p. right. split; reflexivity.
Qed.

Lemma stable_ret {A} (a : A) : stable (mret a).
Proof. apply (stable_gets (fun _ => a)). reflexivity. Qed.

Lemma stable_throw {A} e : stable (@throw A e).
Proof.
  intros w1 w2 He. cbn.
  split; [reflexivity|]. split; [exact He|]. split; [apply same_page_refl|].
  intros p. right. split; reflexivity.
Qed.

Lemma stable_bind {A B} (m : M A) (k : A -> M B) :
  stable m -> (forall a, stable (k a)) -> stable (m ≫= k).
Proof.
  intros Hm Hk w1 w2 He. unfold mbind, M_bind.
  destruct (Hm w1 w2 He) as (Hc & He' & Hp & Hs).
  destruct (m w1) as [[a1|e1] w1'], (m w2) as [[a2|e2] w2'];
    cbn in Hc, He', Hp, Hs; try discriminate.
  - injection Hc as ->.
    destruct (Hk a2 w1' w2' He') as (Hc2 & He2 & Hp2 & Hs2).
    split; [exact Hc2|]. split; [exact He2|].
    split; [eapply same_page_trans; eauto|].
    intros p. destruct (Hs2 p) as [H|[H1 H2]]; [now left|].
    destruct (Hs p) as [H|[H3 H4]].
    + left. congruence.
    + right. split; congruence.
  - injection Hc as ->. cbn.
    split; [reflexivity|]. split; [exact He'|]. split; [exact Hp|]. exact Hs.
Qed.

Lemma stable_ConfigManager_get key fallback : stable (ConfigManager_get key fallback).
Proof. apply stable_gets. intros w1 w2 (_ & -> & _). reflexivity. Qed.

Lemma stable_query selector : stable (query selector).
Proof.
  apply stable_gets. intros w1 w2 (Hp & _).
  pose proof (same_page_present w1 w2 selector Hp) as H.
  destruct (document w1 !! selector), (document w2 !! selector); auto.
  - destruct (proj1 H) as [? ?]; [eauto | discriminate].
  - destruct (proj2 H) as [? ?]; [eauto | discriminate].
Qed.

Lemma stable_emit e : stable (emit e).
Proof.
  intros w1 w2 He. destruct w1, w2. cbn in *. unfold same_env, same_page in *.
  cbn in *. repeat split; tauto.
Qed.

Lemma stable_defer t : stable (defer t).
Proof.
  intros w1 w2 He. destruct w1, w2. cbn in *. unfold same_env, same_page in *.
  cbn in *. repeat split; tauto.
Qed.

Lemma stable_setVar name value : stable (setVar name value).
Proof.
  intros w1 w2 He. destruct w1, w2. cbn in *. unfold same_env, same_page in *.
  cbn in *. repeat split; try tauto.
  intros [n|el key|el c|el]; cbn; auto.
  destruct (decide (("--" ++ name)%string = n)) as [<-|Hne].
  - left. now rewrite !lookup_insert_eq.
  - right. now rewrite !lookup_insert_ne.
Qed.

Lemma dom_alter_document (g : Element -> Element) el (d : gmap string Element) :
  dom (alter g el d) = dom d.
Proof. apply set_eq. intros x. rewrite !elem_of_dom. apply lookup_alter_is_Some. Qed.

Lemma stable_update_element el g : overwrites g -> stable (update_element el g).
Proof.
  intros Hg w1 w2 He. destruct w1 as [cf1 al1 pr1 ru1 d1 rs1 f1 ie1 if1 ae1 xe1 ef1 pd1].
  destruct w2 as [cf2 al2 pr2 ru2 d2 rs2 f2 ie2 if2 ae2 xe2 ef2 pd2].
  unfold same_env, same_page in *. cbn in *.
  destruct He as ((Hcf & Hal & Hpr & Hd) & Hf & Hae & Hxe).
  rewrite !dom_alter_document. repeat split; auto.
  assert (Hpres : forall x, is_Some (d1 !! x) <-> is_Some (d2 !! x)).
  { intros x. rewrite <- !elem_of_dom. now rewrite Hd. }
  intros [n|el' key|el' c|el']; cbn; auto.
  - unfold data_of. cbn.
    destruct (decide (el = el')) as [<-|Hne].
    + rewrite !lookup_alter_eq. specialize (Hpres el).
      destruct (d1 !! el) as [e1|], (d2 !! el) as [e2|]; cbn; auto.
      * destruct (proj1 (Hg e1 e2) key) as [H|[H1 H2]]; [left; congruence | right; split; congruence].
      * destruct (proj1 Hpres) as [? ?]; [eauto | discriminate].
      * destruct (proj2 Hpres) as [? ?]; [eauto | discriminate].
    + right. now rewrite !lookup_alter_ne.
  - unfold classes_of. cbn.
    destruct (decide (el = el')) as [<-|Hne].
    + rewrite !lookup_alter_eq. specialize (Hpres el).
      destruct (d1 !! el) as [e1|], (d2 !! el) as [e2|]; cbn; auto.
      * destruct (proj1 (proj2 (Hg e1 e2)) c) as [H|[H1 H2]];
          [left; congruence | right; split; congruence].
      * destruct (proj1 Hpres) as [? ?]; [eauto | discriminate].
      * destruct (proj2 Hpres) as [? ?]; [eauto | discriminate].
    + right. now rewrite !lookup_alter_ne.
  - unfold src_of. cbn.
    destruct (decide (el = el')) as [<-|Hne].
    + rewrite !lookup_alter_eq. specialize (Hpres el).
      destruct (d1 !! el) as [e1|], (d2 !! el) as [e2|]; cbn; auto.
      * destruct (proj2 (proj2 (Hg e1 e2))) as [H|[H1 H2]];
          [left; congruence | right; split; congruence].
      * destruct (proj1 Hpres) as [? ?]; [eauto | discriminate].
      * destruct (proj2 Hpres) as [? ?]; [eauto | discriminate].
    + right. now rewrite !lookup_alter_ne.
Qed.

Lemma overwrites_set_data key v : overwrites (set_data key v).
Proof.
  intros e1 e2. split; [|cbn; auto]. intros k. cbn.
  destruct (decide (key = k)) as [<-|Hne].
  - left. now rewrite !lookup_insert_eq.
  - right. now rewrite !lookup_insert_ne.
Qed.

Lemma overwrites_delete_data key : overwrites (delete_data key).
Proof.
  intros e1 e2. split; [|cbn; auto]. intros k. cbn.
  destruct (decide (key = k)) as [<-|Hne].
  - left. now rewrite !lookup_delete_eq.
  - right. now rewrite !lookup_delete_ne.
Qed.

Lemma overwrites_toggle_class name force : overwrites (toggle_class name force).
Proof.
  intros e1 e2. split; [cbn; auto|]. split; [|cbn; auto]. intros c.
  destruct (decide (c = name)) as [->|Hne].
  - left. apply bool_decide_ext. now rewrite !toggle_class_same.
  - right. split; apply bool_decide_ext; now rewrite toggle_class_other.
Qed.

Lemma overwrites_set_src v : overwrites (set_src v).
Proof. intros e1 e2. cbn. auto. Qed.

Lemma overwrites_set_volume n : overwrites (set_volume n).
Proof. intros e1 e2. cbn. auto. Qed.

Lemma overwrites_set_currentTime n : overwrites (set_currentTime n).
Proof. intros e1 e2. cbn. auto. Qed.

Lemma overwrites_set_textContent s : overwrites (set_textContent s).
Proof. intros e1 e2. cbn. auto. Qed.

Lemma stable_for_each indices body :
  (forall i, stable (body i)) -> stable (for_each indices body).
Proof.
  intros Hb. induction indices as [|i rest IH]; cbn [for_each].
  - apply stable_ret.
  - apply stable_bind; auto.
Qed.

Create HintDb stable_db.
#[local] Hint Resolve stable_ret stable_throw stable_ConfigManager_get stable_query
  stable_emit stable_defer stable_setVar stable_update_element
  overwrites_set_data overwrites_delete_data overwrites_toggle_class
  overwrites_set_src overwrites_set_volume overwrites_set_currentTime
  overwrites_set_textContent : stable_db.

Ltac stable_step :=
  match goal with
  | |- stable (_ ≫= _) => apply stable_bind; [|intros ?]
  | |- stable (for_each _ _) => apply stable_for_each; intros ?
  | |- stable (gets _) =>
      apply stable_gets; intros ? ? ((? & ? & ? & ?) & ? & ? & ?); congruence
  | |- stable (match ?x with _ => _ end) => destruct x
  | |- stable _ => solve [auto with stable_db]
  end.

Ltac stable_tac := cbv zeta; repeat stable_step.

Lemma stable_ThemeManager_apply : stable ThemeManager_apply.
Proof.
  unfold ThemeManager_apply, ThemeManager_applyContainerSize,
    ThemeManager_applyContainerGradients, ThemeManager_applyAvatarSize,
    ThemeManager_applyRingGradients, ThemeManager_applyAnimation,
    ThemeManager_applyTypography.
  stable_tac.
Qed.

Lemma stable_ShapeManager_apply : stable ShapeManager_apply.
Proof. unfold ShapeManager_apply. stable_tac. Qed.

Lemma stable_EffectsManager_apply : stable EffectsManager_apply.
Proof.
  unfold EffectsManager_apply, EffectsManager_applyDropShadow,
    EffectsManager_applyGlow, EffectsManager_applyAnimationToggles.
  stable_tac.
Qed.

Lemma stable_AudioManager_play : stable AudioManager_play.
Proof.
  unfold AudioManager_play, AudioManager_isTokenString, assign_src. stable_tac.
Qed.

Lemma stable_playIntro : stable AnimationController_playIntro.
Proof.
  unfold AnimationController_playIntro, AnimationController_isAvailable.
  stable_tac.
Qed.

Lemma stable_announce message : stable (AccessibilityManager_announce message).
Proof. unfold AccessibilityManager_announce. stable_tac. Qed.

Lemma stable_first_pass : stable first_pass.
Proof.
  unfold first_pass, ImageRenderer_render.
  apply stable_bind; [apply stable_ThemeManager_apply | intros _].
  apply stable_bind; [apply stable_ShapeManager_apply | intros _].
  apply stable_bind; [apply stable_EffectsManager_apply | intros _].
  apply stable_bind; [apply stable_ret | intros _].
  apply stable_bind; [apply stable_AudioManager_play | intros _].
  apply stable_bind; [apply stable_playIntro | intros _].
  apply stable_bind; [apply stable_announce | intros _].
  apply stable_emit.
Qed.

Lemma seen_alter_neutral (g : Element -> Element) el wa wb p :
  (forall e, dataset (g e) = dataset e /\ classList (g e) = classList e
             /\ src (g e) = src e) ->
  rootStyle wa = rootStyle wb ->
  document wa = alter g el (document wb) ->
  seen wa p = seen wb p.
Proof.
  intros Hg Hs Hd.
  destruct p as [n|el' key|el' c|el']; cbn; [now rewrite Hs| | |].
  - unfold data_of. rewrite Hd, lookup_alter.
    destruct (decide (el = el')) as [<-|Hne]; [|reflexivity].
    destruct (document wb !! el) as [e|]; cbn; [|reflexivity].
    now rewrite (proj1 (Hg e)).
  - unfold classes_of. rewrite Hd, lookup_alter.
    destruct (decide (el = el')) as [<-|Hne]; [|reflexivity].
    destruct (document wb !! el) as [e|]; cbn; [|reflexivity].
    now rewrite (proj1 (proj2 (Hg e))).
  - unfold src_of. rewrite Hd, lookup_alter.
    destruct (decide (el = el')) as [<-|Hne]; [|reflexivity].
    destruct (document wb !! el) as [e|]; cbn; [|reflexivity].
    now rewrite (proj2 (proj2 (Hg e))).
Qed.

(** The managers' [init] methods always complete, leave every observed
    place alone, and bring the managers to a state fixed by the page. *)
Lemma managers_init_spec w :
  exists w0,
    managers_init w = (Normal tt, w0) /\
    same_page w w0 /\
    (forall p, seen w0 p = seen w p) /\
    ConfigManager_fields w0 = default ∅ (customFields w) /\
    AudioManager_element w0 =
      match document w !! "#alert-sound" with
      | Some _ => Some "#alert-sound"
      | None => None
      end /\
    AccessibilityManager_element w0 =
      match document w !! "#sr-announcement" with
      | Some _ => Some "#sr-announcement"
      | None => None
      end.
Proof.
  unfold managers_init, ImageRenderer_init, AudioManager_init,
    AccessibilityManager_init.
  destruct w as [cf al pr ru d rs f ie ifb ae xe ef pd]. run_M.
  destruct (d !! "#alert-sound") as [sound|] eqn:Hsound;
    destruct (d !! "#sr-announcement") as [announcer|] eqn:Hannouncer;
    destruct (d !! "#alert-avatar") as [avatar|] eqn:Havatar; run_M;
    rewrite ?Havatar; run_M;
    rewrite ?(lookup_alter_ne _ _ "#alert-avatar") by discriminate;
    rewrite ?Hsound, ?Hannouncer;
    (eexists; split; [reflexivity|]);
    (split; [|split; [|split; [|split]]]); try reflexivity;
    try (unfold same_page; cbn; rewrite ?dom_alter_document; tauto);
    try (intros p;
         apply (seen_alter_neutral add_errorListener "#alert-avatar");
         [intros e; repeat split; reflexivity | reflexivity | reflexivity]);
    try (intros [n|el key|el c|el]; reflexivity).
Qed.

Lemma managers_init_same_env w1 w2 w1' w2' :
  same_page w1 w2 ->
  managers_init w1 = (Normal tt, w1') ->
  managers_init w2 = (Normal tt, w2') ->
  same_env w1' w2'.
Proof.
  intros Hp H1 H2.
  destruct (managers_init_spec w1) as (x1 & E1 & P1 & _ & F1 & A1 & X1).
  destruct (managers_init_spec w2) as (x2 & E2 & P2 & _ & F2 & A2 & X2).
  assert (x1 = w1') by congruence. assert (x2 = w2') by congruence. subst x1 x2.
  split; [|split; [|split]].
  - apply same_page_trans with w1; [now apply same_page_sym|].
    now apply same_page_trans with w2.
  - rewrite F1, F2. now destruct Hp as (-> & _).
  - rewrite A1, A2.
    pose proof (same_page_present w1 w2 "#alert-sound" Hp) as H.
    destruct (document w1 !! "#alert-sound"), (document w2 !! "#alert-sound");
      auto.
    + destruct (proj1 H) as [? ?]; [eauto | discriminate].
    + destruct (proj2 H) as [? ?]; [eauto | discriminate].
  - rewrite X1, X2.
    pose proof (same_page_present w1 w2 "#sr-announcement" Hp) as H.
    destruct (document w1 !! "#sr-announcement"),
      (document w2 !! "#sr-announcement"); auto.
    + destruct (proj1 H) as [? ?]; [eauto | discriminate].
    + destruct (proj2 H) as [? ?]; [eauto | discriminate].
Qed.

Lemma init_unfold w :
  init w = try_catch (managers_init ≫= fun _ => first_pass) init_handler w.
Proof.
  unfold init, managers_init, first_pass, try_catch, mbind, M_bind.
  destruct (ConfigManager_init w) as [[[]|e0] w0]; [|reflexivity].
  destruct (ImageRenderer_init w0) as [[[]|e1] w1]; [|reflexivity].
  destruct (AudioManager_init w1) as [[[]|e2] w2]; [|reflexivity].
  destruct (AccessibilityManager_init w2) as [[[]|e3] w3]; reflexivity.
Qed.

(** What a pass leaves is what its second half leaves, up to a logged
    error. *)
Lemma init_result w :
  exists w0 w1 c,
    managers_init w = (Normal tt, w0) /\
    first_pass w0 = (c, w1) /\
    (forall p, seen (exec init w) p = seen w1 p) /\
    same_page w1 (exec init w).
Proof.
  destruct (managers_init_spec w) as (w0 & E0 & _).
  destruct (first_pass w0) as [c w1] eqn:E1.
  exists w0, w1, c. split; [exact E0|]. split; [exact E1|].
  unfold exec. rewrite init_unfold. unfold try_catch, mbind, M_bind.
  rewrite E0, E1. destruct c as [[]|e].
  - cbn. split; [reflexivity | apply same_page_refl].
  - destruct w1. cbn. split; [intros []; reflexivity|]. unfold same_page. cbn. tauto.
Qed.

Lemma seen_determines w1 w2 :
  dom (document w1) = dom (document w2) ->
  (forall p, seen w1 p = seen w2 p) ->
  style_and_attributes w1 = style_and_attributes w2.
Proof.
  intros Hd Hs. unfold style_and_attributes. f_equal.
  - apply map_eq. intros name. specialize (Hs (StyleVar name)). cbn in Hs.
    congruence.
  - apply map_eq. intros el. rewrite !lookup_fmap.
    assert (Hpres : is_Some (document w1 !! el) <-> is_Some (document w2 !! el)).
    { rewrite <- !elem_of_dom. now rewrite Hd. }
    destruct (document w1 !! el) as [e1|] eqn:E1,
             (document w2 !! el) as [e2|] eqn:E2; cbn.
    + f_equal. f_equal; [f_equal|].
      * apply map_eq. intros key. specialize (Hs (DataAttr el key)).
        cbn in Hs. unfold data_of in Hs. rewrite E1, E2 in Hs. congruence.
      * apply set_eq. intros name. specialize (Hs (ClassName el name)).
        cbn in Hs. unfold classes_of in Hs. rewrite E1, E2 in Hs.
        injection Hs as Hs.
        rewrite <- (bool_decide_eq_true (name ∈ classList e1)).
        rewrite <- (bool_decide_eq_true (name ∈ classList e2)).
        now rewrite Hs.
      * specialize (Hs (SrcAttr el)). cbn in Hs. unfold src_of in Hs.
        rewrite E1, E2 in Hs. cbn in Hs. congruence.
    + destruct (proj1 Hpres) as [? ?]; [eauto | discriminate].
    + destruct (proj2 Hpres) as [? ?]; [eauto | discriminate].
    + reflexivity.
Qed.

(** C2. Running the initialization pass a second time, the configuration
    and the page's elements being what they were, leaves the style
    variables and every element's data attributes, classes and source
    exactly as the first pass left them. *)
Theorem init_idempotent (w : World) :
  style_and_attributes (exec init (exec init w))
  = style_and_attributes (exec init w).
Proof.
  destruct (init_result w) as (w0 & w1 & c & E0 & E1 & Hseen & Hpage).
  destruct (init_result (exec init w)) as (w0' & w1' & c' & E0' & E1' & Hseen' & Hpage').
  destruct (managers_init_spec w) as (x & Ex & Px & Sx & _).
  assert (x = w0) by congruence. subst x.
  destruct (managers_init_spec (exec init w)) as (x & Ex' & Px' & Sx' & _).
  assert (x = w0') by congruence. subst x.
  destruct (stable_first_pass w0 w0') as (_ & Henv & Hp1 & Hplaces).
  { apply (managers_init_same_env w (exec init w)); auto.
    apply same_page_trans with w0; [exact Px|].
    apply same_page_trans with w1; [|exact Hpage].
    destruct (stable_first_pass w0 w0) as (_ & _ & H & _).
    - repeat split; apply same_page_refl.
    - now rewrite E1 in H. }
  rewrite E1, E1' in Hplaces. cbn in Hplaces.
  rewrite E1, E1' in Henv. cbn in Henv.
  apply seen_determines.
  - destruct Hpage' as (_ & _ & _ & <-). destruct Hpage as (_ & _ & _ & <-).
    symmetry. now destruct Henv as ((_ & _ & _ & ?) & _).
  - intros p. rewrite Hseen', Hseen.
    destruct (Hplaces p) as [H | [H1 H2]]; [now symmetry|].
    rewrite H2, Sx'. apply Hseen.
Qed.

(** The pass on an empty configuration: the defaults come out, the glow
    class and the classes that switch animations off are absent. *)
Example empty_configuration_defaults :
  let w :=
    exec init
      (page None true None
         (list_to_map [(".alert-frame", blank); (".alert-avatar-ring", blank);
                       (".alert-avatar-wrapper", blank)])) in
  data_of w ".alert-frame" !! "shape" = Some (VStr "rounded-rectangle") /\
  data_of w ".alert-frame" !! "aspect" = None /\
  data_of w ".alert-avatar-wrapper" !! "avatarShape" = Some (VStr "circle") /\
  elements (classes_of w ".alert-frame") = [] /\
  elements (classes_of w ".alert-avatar-ring") = [] /\
  rootStyle w !! "--container-width" = Some (px (lit 1000)) /\
  rootStyle w !! "--glow-enabled" = Some (flag false) /\
  rootStyle w !! "--drop-shadow-enabled" = Some (flag true) /\
  rootStyle w !! "--font-family"
    = Some [Text "'"; Interp (VStr "Ubuntu");
            Text "', 'Ubuntu', system-ui, sans-serif"].
Proof. vm_compute. repeat split; reflexivity. Qed.

(** * Further properties *)

(** ** The numeric clamp parser, beyond its range *)

Lemma Math_min_of_le x y : num_leb x y = true -> Math_min x y = x.
Proof.
  intros H. destruct (num_leb_not_NaN _ _ H) as [Hx Hy].
  unfold Math_min. rewrite Hx, Hy. simpl.
  destruct (num_ltb y x) eqn:E; [|reflexivity].
  apply num_leb_antisym; [now apply num_ltb_leb | assumption].
Qed.


Lemma num_ltb_leb_trans x y z :
  num_ltb x y = true -> num_leb y z = true -> num_ltb x z = true.
Proof.
  destruct x, y, z; simpl; intros H1 H2; try discriminate; auto.
  apply bool_decide_eq_true. apply bool_decide_eq_true in H1, H2.
  eapply Qclt_le_trans; eauto.
Qed.

Lemma clamp_fixes_in_range x lo hi :
  in_range lo hi x = true -> Math_min (Math_max x lo) hi = x.
Proof.
  unfold in_range. intros H. apply andb_true_iff in H as [H1 H2].
  rewrite (Math_max_of_ge x lo H1). now apply Math_min_of_le.
Qed.



(** X2. With the bounds the wrong way round, [max] below [min], every input
    that parses gives [max]. *)
Theorem parseNumber_inverted_bounds (value : JSValue) (fallback min max : number) :
  num_ltb max min = true ->
  isNaN (parseFloat value) = false ->
  parseNumber value fallback min max = max.
Proof.
  intros Hlt Hv. unfold parseNumber. rewrite Hv.
  assert (Hmin : isNaN min = false).
  { apply num_ltb_leb in Hlt. now apply num_leb_not_NaN in Hlt. }
  assert (Hmax : isNaN max = false).
  { apply num_ltb_leb in Hlt. now apply num_leb_not_NaN in Hlt. }
  destruct (Math_max_lower (parseFloat value) min Hv Hmin) as (Hm & Hlo & _).
  unfold Math_min. rewrite Hm, Hmax. simpl.
  now rewrite (num_ltb_leb_trans max min _ Hlt Hlo).
Qed.

Lemma parseNumber_inverted_bounds_witness :
  parseNumber (VStr "7") (lit 1) (lit 10) (lit 5) = lit 5.
Proof.
  apply parseNumber_inverted_bounds; vm_compute; reflexivity.
Defined.

(** X3. A numeric setting that is not given (no entry, [null], or a blank
    string) takes its default as it is: every default of the table lies
    within its setting's range, so none is clamped. *)
Theorem numeric_defaults_pass_unclamped :
  Forall (fun '(key, fallback, min, max) =>
            forall fields : gmap string JSValue,
              entry_empty fields key = true ->
              parseNumber (config_get fields key VUndefined) fallback min max
              = fallback)
         numeric_settings.
Proof.
  unfold numeric_settings.
  repeat (apply Forall_cons; split;
          [ cbv beta iota; intros fields He; unfold config_get;
            rewrite (getField_empty _ _ _ He);
            match goal with
            | |- parseNumber ?d ?fb ?lo ?hi = _ =>
                replace d with (VNum fb) by (vm_compute; reflexivity)
            end;
            unfold parseNumber; cbn [parseFloat isNaN lit];
            apply clamp_fixes_in_range; vm_compute; reflexivity | ]).
  constructor.
Qed.

Lemma numeric_defaults_pass_unclamped_witness :
  parseNumber (config_get {["containerWidth" := VStr "  "]} "containerWidth" VUndefined)
    (lit 1000) (lit 300) (lit 1600) = lit 1000.
Proof.
  pose proof numeric_defaults_pass_unclamped as H.
  apply Forall_cons in H as [H _].
  apply (H {["containerWidth" := VStr "  "]}). vm_compute. reflexivity.
Defined.

(** ** What the field accessor returns *)

Lemma trimStart_head s :
  trimStart s = "" \/
  exists c r, trimStart s = String c r /\ isWhiteSpace c = false.
Proof.
  induction s as [|c r IH]; [now left|]. cbn [trimStart].
  destruct (isWhiteSpace c) eqn:E; [exact IH|]. right. eauto.
Qed.

Lemma trimEnd_head c r :
  isWhiteSpace c = false -> exists r', trimEnd (String c r) = String c r'.
Proof.
  intros E. cbn [trimEnd]. destruct (trimEnd r); [rewrite E|]; eauto.
Qed.

Lemma trimEnd_idempotent s : trimEnd (trimEnd s) = trimEnd s.
Proof.
  induction s as [|c r IH]; [reflexivity|]. cbn [trimEnd].
  destruct (trimEnd r) as [|c' r'] eqn:E.
  - destruct (isWhiteSpace c) eqn:W; [reflexivity|].
    cbn [trimEnd]. now rewrite W.
  - cbn [trimEnd] in IH |- *. cbn [trimEnd]. 
    destruct (match trimEnd r' with
              | "" => if isWhiteSpace c' then "" else String c' ""
              | String a s0 => String c' (String a s0)
              end) eqn:E2; [discriminate IH|]. now rewrite IH.
Qed.

Lemma trim_stable s : trimStart (trim s) = trim s /\ trimEnd (trim s) = trim s.
Proof.
  unfold trim. split; [|apply trimEnd_idempotent].
  destruct (trimStart_head s) as [-> | (c & r & -> & W)]; [reflexivity|].
  destruct (trimEnd_head c r W) as [r' ->]. cbn [trimStart]. now rewrite W.
Qed.

Lemma trim_idempotent s : trim (trim s) = trim s.
Proof.
  destruct (trim_stable s) as [H1 H2]. unfold trim at 1. now rewrite H1, H2.
Qed.

(** X4. What the field accessor returns is the fallback, or a boolean, a
    number or a built-in of the map as it is, or the member that objects
    inherit when the map has no entry for such a key, or a non-empty string
    with no white space at either end; trimming it again changes
    nothing. *)
Theorem getField_result (fields : gmap string JSValue) (key : string)
    (fallback : JSValue) :
  getField fields key fallback = fallback \/
  (exists b, fields !! key = Some (VBool b) /\
             getField fields key fallback = VBool b) \/
  (exists n, fields !! key = Some (VNum n) /\
             getField fields key fallback = VNum n) \/
  (exists o, getField fields key fallback = VBuiltin o /\
             (fields !! key = Some (VBuiltin o) \/
              (fields !! key = None /\ inherited key = true /\ o = key))) \/
  (exists s, getField fields key fallback = VStr s /\
             s <> "" /\ trimStart s = s /\ trimEnd s = s /\ trim s = s).
Proof.
  destruct (fields !! key) as [[| |b|n|s|o]|] eqn:E.
  - left. unfold getField. now rewrite (get_prop_own _ _ _ E).
  - left. unfold getField. now rewrite (get_prop_own _ _ _ E).
  - right. left. exists b. split; [reflexivity|].
    unfold getField. now rewrite (get_prop_own _ _ _ E).
  - right. right. left. exists n. split; [reflexivity|].
    unfold getField. now rewrite (get_prop_own _ _ _ E).
  - rewrite (getField_string fields key fallback s E).
    destruct (String.eqb_spec (trim s) "") as [Ht|Ht]; [now left|].
    right. right. right. right. exists (trim s). split; [reflexivity|].
    split; [exact Ht|]. destruct (trim_stable s) as [H1 H2].
    split; [exact H1|]. split; [exact H2|]. apply trim_idempotent.
  - right. right. right. left. exists o. split; [|now left].
    unfold getField. now rewrite (get_prop_own _ _ _ E).
  - destruct (inherited key) eqn:Hi.
    + right. right. right. left. exists key. split; [|right; auto].
      unfold getField. now rewrite (get_prop_inherited _ _ E Hi).
    + left. unfold getField. now rewrite (get_prop_missing _ _ E Hi).
Qed.

(** ** Nothing undefined is written *)

Lemma getField_defined fields key fallback :
  is_defined fallback = true -> is_defined (getField fields key fallback) = true.
Proof.
  intros Hfb.
  destruct (fields !! key) as [[| |b|n|s|o]|] eqn:E;
    try (unfold getField; rewrite (get_prop_own _ _ _ E); auto; fail).
  - rewrite (getField_string fields key fallback s E).
    now destruct (String.eqb (trim s) "").
  - unfold getField, get_prop. rewrite E. now destruct (inherited key).
Qed.

Lemma config_get_defined fields key fallback :
  is_defined (nullish fallback (get_prop DEFAULTS key)) = true ->
  is_defined (config_get fields key fallback) = true.
Proof. intros H. unfold config_get. now apply getField_defined. Qed.

Ltac defined_value :=
  repeat constructor;
  try (apply config_get_defined; vm_compute; reflexivity).

Ltac written_variable :=
  repeat (rewrite lookup_insert;
          match goal with
          | |- context [decide (?k = ?name)] =>
              destruct (decide (k = name)) as [_|_];
              [intros [= <-]; right; defined_value|]
          end);
  intros H; left; exact H.

Lemma writes_defined_bind {A B} (m : M A) (k : A -> M B) :
  writes_defined m -> (forall a, writes_defined (k a)) ->
  writes_defined (m ≫= k).
Proof.
  intros Hm Hk w name parts. unfold mbind, M_bind.
  specialize (Hm w name parts).
  destruct (m w) as [[a|e] w1]; cbn in Hm |- *; [|exact Hm].
  intros H. destruct (Hk a w1 name parts H) as [H1|H1]; auto.
Qed.

Lemma writes_defined_theme : writes_defined ThemeManager_apply.
Proof.
  intros w name parts. unfold defined_parts.
  destruct w as [cf al pr ru d rs f ie ifb ae xe ef pd].
  unfold ThemeManager_apply, ThemeManager_applyContainerSize,
    ThemeManager_applyContainerGradients, ThemeManager_applyAvatarSize,
    ThemeManager_applyRingGradients, ThemeManager_applyAnimation,
    ThemeManager_applyTypography.
  run_M. written_variable.
Qed.

Lemma writes_defined_shape : writes_defined ShapeManager_apply.
Proof.
  intros w name parts. unfold defined_parts.
  destruct w as [cf al pr ru d rs f ie ifb ae xe ef pd].
  unfold ShapeManager_apply. run_M.
  destruct (d !! ".alert-frame") as [frame|]; run_M; [|auto].
  destruct (negb _); destruct (d !! ".alert-avatar-wrapper"); run_M;
    written_variable.
Qed.

Lemma writes_defined_dropShadow : writes_defined EffectsManager_applyDropShadow.
Proof.
  intros w name parts. unfold defined_parts, flag.
  destruct w as [cf al pr ru d rs f ie ifb ae xe ef pd].
  unfold EffectsManager_applyDropShadow. run_M. written_variable.
Qed.

Lemma writes_defined_glow : writes_defined EffectsManager_applyGlow.
Proof.
  intros w name parts. unfold defined_parts, flag.
  destruct w as [cf al pr ru d rs f ie ifb ae xe ef pd].
  unfold EffectsManager_applyGlow. run_M.
  destruct (d !! ".alert-frame"); run_M; written_variable.
Qed.

Lemma writes_defined_toggles : writes_defined EffectsManager_applyAnimationToggles.
Proof.
  intros w name parts. unfold defined_parts.
  destruct w as [cf al pr ru d rs f ie ifb ae xe ef pd].
  unfold EffectsManager_applyAnimationToggles. run_M.
  destruct (d !! ".alert-frame"); destruct (d !! ".alert-avatar-ring"); run_M;
    written_variable.
Qed.

(** X5. Whatever the configuration, a style variable is after each
    translator what it was before, or a value no part of which is
    [undefined] or [null]: every key the translators read has a default. *)
Theorem style_variables_defined (w : World) (name : string) (parts : list Part) :
  (rootStyle (exec ThemeManager_apply w) !! name = Some parts ->
   rootStyle w !! name = Some parts \/ defined_parts parts) /\
  (rootStyle (exec ShapeManager_apply w) !! name = Some parts ->
   rootStyle w !! name = Some parts \/ defined_parts parts) /\
  (rootStyle (exec EffectsManager_apply w) !! name = Some parts ->
   rootStyle w !! name = Some parts \/ defined_parts parts).
Proof.
  split; [apply writes_defined_theme|]. split; [apply writes_defined_shape|].
  apply (writes_defined_bind EffectsManager_applyDropShadow);
    [apply writes_defined_dropShadow | intros _].
  apply (writes_defined_bind EffectsManager_applyGlow);
    [apply writes_defined_glow | intros _].
  apply writes_defined_toggles.
Qed.

(** ** What the translators touch *)

Lemma written_names_rev (l : list string) : forall B : gset string,
  foldr (fun x S => {[x]} ∪ S) B (reverse l) = list_to_set l ∪ B.
Proof.
  induction l as [|x l IH]; intros B.
  - cbn. now rewrite (left_id_L ∅ (∪)).
  - rewrite reverse_cons, foldr_app. cbn [foldr list_to_set]. rewrite IH.
    rewrite (assoc_L (∪)). f_equal. apply (comm_L (∪)).
Qed.

(** The names of a chain of writes, latest first, against their set. *)
Ltac written_set :=
  rewrite !dom_insert_L;
  match goal with
  | |- _ = list_to_set ?L ∪ ?B =>
      rewrite <- (written_names_rev L B);
      let R := eval cbv in (reverse L) in
      change (reverse L) with R;
      cbn [foldr]; reflexivity
  end.

(** X6. [ThemeManager.apply] always completes, changes nothing but the
    style scope, and writes there exactly its 28 variables, whatever was
    there and whatever the configuration. *)
Theorem ThemeManager_apply_footprint (w : World) :
  ThemeManager_apply w
  = (Normal tt, with_rootStyle (rootStyle (exec ThemeManager_apply w)) w) /\
  dom (rootStyle (exec ThemeManager_apply w)) = theme_variables ∪ dom (rootStyle w).
Proof.
  destruct w as [cf al pr ru d rs f ie ifb ae xe ef pd].
  unfold ThemeManager_apply, ThemeManager_applyContainerSize,
    ThemeManager_applyContainerGradients, ThemeManager_applyAvatarSize,
    ThemeManager_applyRingGradients, ThemeManager_applyAnimation,
    ThemeManager_applyTypography.
  split.
  - run_M. reflexivity.
  - run_M. unfold theme_variables. written_set.
Qed.

(** X7. [EffectsManager.apply] tolerates missing elements: it always
    completes, logs and queues nothing, writes its 10 variables whether
    the frame and the ring are there or not, keeps the page's elements in
    place, and with neither of them leaves the page as it was. *)
Theorem EffectsManager_apply_tolerant (w : World) :
  let after := exec EffectsManager_apply w in
  fst (EffectsManager_apply w) = Normal tt /\
  effects after = effects w /\
  pending after = pending w /\
  dom (rootStyle after) = effects_variables ∪ dom (rootStyle w) /\
  dom (document after) = dom (document w) /\
  (document w !! ".alert-frame" = None ->
   document w !! ".alert-avatar-ring" = None ->
   document after = document w).
Proof.
  destruct w as [cf al pr ru d rs f ie ifb ae xe ef pd].
  unfold EffectsManager_apply.
  assert (Hsplit : forall w0,
             EffectsManager_applyDropShadow w0
             = (Normal tt, exec EffectsManager_applyDropShadow w0)).
  { intros w0. destruct w0. unfold EffectsManager_applyDropShadow. run_M.
    reflexivity. }
  unfold exec, mbind, M_bind. cbv zeta. rewrite Hsplit.
  unfold EffectsManager_applyDropShadow, EffectsManager_applyGlow,
    EffectsManager_applyAnimationToggles.
  run_M.
  destruct (d !! ".alert-frame") as [frame|] eqn:Hframe; run_M;
    rewrite ?lookup_alter_eq, ?Hframe; cbn [fmap option_fmap option_map]; run_M;
    rewrite ?(lookup_alter_ne _ _ ".alert-frame") by discriminate;
    destruct (d !! ".alert-avatar-ring") as [ring|] eqn:Hring; run_M;
    (split; [reflexivity|]); (split; [reflexivity|]); (split; [reflexivity|]);
    (split; [unfold effects_variables; written_set|]);
    (split; [rewrite ?dom_alter_document; reflexivity|]);
    intros; first [discriminate | reflexivity].
Qed.

Lemma EffectsManager_apply_tolerant_witness :
  document (exec EffectsManager_apply (page None true None ∅))
  = document (page None true None ∅).
Proof.
  pose proof (EffectsManager_apply_tolerant (page None true None ∅)) as H.
  cbv zeta in H. destruct H as (_ & _ & _ & _ & _ & H).
  apply H; vm_compute; reflexivity.
Defined.

(** ** The shape translator's edges *)

(** X8. Without the frame, [ShapeManager.apply] does nothing but log one
    warning: no shape padding is written and the avatar wrapper gets no
    shape, even when the wrapper is there. *)
Theorem ShapeManager_apply_without_frame (w : World) :
  document w !! ".alert-frame" = None ->
  ShapeManager_apply w
  = (Normal tt,
     with_effects
       (effects w ++
        [ConsoleWarn [Text "[Alert] Alert frame not found for shape application"]])
       w).
Proof.
  intros Hframe. unfold ShapeManager_apply.
  destruct w as [cf al pr ru d rs f ie ifb ae xe ef pd]. cbn in Hframe.
  run_with Hframe. destruct (d !! ".alert-avatar-wrapper"); reflexivity.
Qed.

Lemma ShapeManager_apply_without_frame_witness :
  data_of
    (exec ShapeManager_apply
       (with_ConfigManager_fields {["avatarShape" := VStr "square"]}
          (page None true None {[".alert-avatar-wrapper" := blank]})))
    ".alert-avatar-wrapper" !! "avatarShape" = None.
Proof.
  unfold exec.
  rewrite (ShapeManager_apply_without_frame
             (with_ConfigManager_fields {["avatarShape" := VStr "square"]}
                (page None true None {[".alert-avatar-wrapper" := blank]})))
    by (vm_compute; reflexivity).
  vm_compute. reflexivity.
Defined.

(** X9. With the frame in the page, the aspect attribute follows the
    sentinel: a resolved [maintainAspectRatio] other than ["none"] is
    written as the frame's aspect attribute, and ["none"] (the default too)
    removes the attribute, whatever it held; the frame's other data
    attributes, the shape apart, stay, and the avatar wrapper, when there,
    gets the resolved avatar shape. *)
Theorem ShapeManager_apply_aspect (w : World) (frame : Element) :
  document w !! ".alert-frame" = Some frame ->
  let fields := ConfigManager_fields w in
  let aspect := config_get fields "maintainAspectRatio" (VStr "none") in
  let after := exec ShapeManager_apply w in
  fst (ShapeManager_apply w) = Normal tt /\
  effects after = effects w /\
  data_of after ".alert-frame" !! "aspect"
    = (if decide (aspect = VStr "none") then None else Some aspect) /\
  (forall key, key <> "shape" -> key <> "aspect" ->
     data_of after ".alert-frame" !! key = dataset frame !! key) /\
  classes_of after ".alert-frame" = classList frame /\
  (forall wrapper, document w !! ".alert-avatar-wrapper" = Some wrapper ->
     data_of after ".alert-avatar-wrapper" !! "avatarShape"
       = Some (config_get fields "avatarShape" (VStr "circle"))).
Proof.
  intros Hframe fields aspect after. subst after fields aspect.
  unfold data_of, classes_of, ShapeManager_apply.
  destruct w as [cf al pr ru d rs f ie ifb ae xe ef pd]. cbn in Hframe |- *.
  run_with Hframe. rewrite strict_eq_string.
  destruct (decide (config_get f "maintainAspectRatio" (VStr "none") = VStr "none"))
    as [E|E].
  - rewrite (bool_decide_eq_true_2 _ E). cbn [negb].
    destruct (d !! ".alert-avatar-wrapper") as [wrapper|] eqn:Hw; run_M;
      rewrite ?(lookup_alter_ne _ _ ".alert-avatar-wrapper") by discriminate;
      rewrite ?lookup_alter_eq, ?Hframe, ?Hw; cbn;
      (split; [reflexivity|]); (split; [reflexivity|]);
      (split; [apply lookup_delete_eq|]);
      (split; [intros key H1 H2;
               now rewrite lookup_delete_ne, lookup_insert_ne by congruence|]);
      (split; [reflexivity|]); intros wrapper' [= <-];
      rewrite ?lookup_alter_eq, ?lookup_alter_ne by discriminate;
      rewrite ?lookup_alter_eq, ?Hw; cbn; now rewrite lookup_insert_eq.
  - rewrite (bool_decide_eq_false_2 _ E). cbn [negb].
    destruct (d !! ".alert-avatar-wrapper") as [wrapper|] eqn:Hw; run_M;
      rewrite ?(lookup_alter_ne _ _ ".alert-avatar-wrapper") by discriminate;
      rewrite ?lookup_alter_eq, ?Hframe, ?Hw; cbn;
      (split; [reflexivity|]); (split; [reflexivity|]);
      (split; [apply lookup_insert_eq|]);
      (split; [intros key H1 H2;
               now rewrite !lookup_insert_ne by congruence|]);
      (split; [reflexivity|]); intros wrapper' [= <-];
      rewrite ?lookup_alter_eq, ?lookup_alter_ne by discriminate;
      rewrite ?lookup_alter_eq, ?Hw; cbn; now rewrite lookup_insert_eq.
Qed.

Lemma ShapeManager_apply_aspect_witness :
  data_of
    (exec ShapeManager_apply
       (page None true None
          {[".alert-frame" := set_data "aspect" (VStr "16:9") blank]}))
    ".alert-frame" !! "aspect" = None.
Proof.
  pose proof (ShapeManager_apply_aspect
                (page None true None
                   {[".alert-frame" := set_data "aspect" (VStr "16:9") blank]})
                (set_data "aspect" (VStr "16:9") blank)) as H.
  cbv zeta in H. destruct H as (_ & _ & H & _); [vm_compute; reflexivity|].
  rewrite H. vm_compute. reflexivity.
Defined.

(** ** The intro sequence *)

Lemma playIntro_closed (w : World) :
  let targets :=
    omap (found w) [".alert-frame"; ".alert-zone--left"; ".alert-zone--right";
                    ".alert-avatar-wrapper"] in
  AnimationController_playIntro w
  = (Normal tt,
     with_effects
       (effects w ++
        if negb (animeLoaded w) then
          [ConsoleWarn [Text "[Alert] anime.js not available, skipping animations"]]
        else
          match targets with
          | [] => [ConsoleWarn [Text "[Alert] No animation targets found"]]
          | _ =>
              [AnimeSet targets;
               AnimeTimeline [(found w ".alert-frame", "");
                              (found w ".alert-zone--left", "-=400");
                              (found w ".alert-avatar-wrapper", "-=400");
                              (found w ".alert-zone--right", "-=400")]]
          end)
       w).
Proof.
  unfold AnimationController_playIntro, AnimationController_isAvailable, found.
  destruct w as [cf al pr ru d rs f ie ifb ae xe ef pd]. run_M.
  destruct al; cbn [negb]; run_M; [|reflexivity].
  destruct (d !! ".alert-frame") eqn:H1, (d !! ".alert-zone--left") eqn:H2,
    (d !! ".alert-zone--right") eqn:H3, (d !! ".alert-avatar-wrapper") eqn:H4;
    cbn; run_M; cbn; rewrite ?H1, ?H2, ?H3, ?H4; cbn;
    rewrite <- ?app_assoc; reflexivity.
Qed.




(** ** The announcement *)

(** X11. With the announcer element in hand, [announce] empties its text
    and queues the message; when the queued callback runs the text is the
    message, so an announcement always passes through the empty text, the
    same message twice included.  The element's attributes and classes
    stay, and nothing is logged. *)
Theorem announce_round_trip (w : World) (announcer : string) (e : Element)
    (message : string) :
  AccessibilityManager_element w = Some announcer ->
  document w !! announcer = Some e ->
  let cleared := exec (AccessibilityManager_announce message) w in
  let spoken := exec (run_task (AnnounceLater message)) cleared in
  fst (AccessibilityManager_announce message w) = Normal tt /\
  text_of cleared announcer = Some "" /\
  pending cleared = (pending w ++ [AnnounceLater message])%list /\
  effects cleared = effects w /\
  fst (run_task (AnnounceLater message) cleared) = Normal tt /\
  text_of spoken announcer = Some message /\
  document spoken !! announcer = Some (set_textContent message e) /\
  effects spoken = effects w.
Proof.
  intros Hel He. unfold text_of, AccessibilityManager_announce, run_task.
  destruct w as [cf al pr ru d rs f ie ifb ae xe ef pd]. cbn in Hel, He |- *.
  run_with Hel. rewrite !lookup_alter_eq, He. cbn.
  repeat split; reflexivity.
Qed.

Lemma announce_round_trip_witness :
  text_of
    (exec (run_task (AnnounceLater "New subscription alert"))
       (exec (AccessibilityManager_announce "New subscription alert")
          (exec AccessibilityManager_init
             (page None true None
                {["#sr-announcement" := set_textContent "New subscription alert" blank]}))))
    "#sr-announcement" = Some "New subscription alert".
Proof.
  refine (proj1 (proj2 (proj2 (proj2 (proj2 (proj2
            (announce_round_trip
               (exec AccessibilityManager_init
                  (page None true None
                     {["#sr-announcement" :=
                         set_textContent "New subscription alert" blank]}))
               "#sr-announcement"
               (set_textContent "New subscription alert" blank)
               "New subscription alert" _ _))))))).
  - vm_compute. reflexivity.
  - vm_compute. reflexivity.
Defined.

(** ** Arming the image fallback *)

(** Once the element holds the recorded fallback, it holds it after any
    number of calls of [handleError], whether the guard stops them or
    not. *)
Lemma handleError_keeps_fallback avatar n : forall w e,
  ImageRenderer_element w = Some avatar ->
  document w !! avatar = Some e ->
  src e = ImageRenderer_fallbackSrc w ->
  exists w',
    repeat_M n ImageRenderer_handleError w = (Normal tt, w') /\
    src_of w' avatar = Some (ImageRenderer_fallbackSrc w).
Proof.
  induction n as [|n IH]; intros w e Hel He Hsrc.
  - exists w. split; [reflexivity|]. unfold src_of. rewrite He. cbn. now f_equal.
  - cbn [repeat_M]. unfold mbind, M_bind.
    destruct (strict_eq (read_src w e) (ImageRenderer_fallbackSrc w)) eqn:Heq.
    + rewrite (handleError_on_fallback avatar w) by (split; eauto).
      now apply (IH w e).
    + rewrite (handleError_reassigns avatar e w Hel He Heq).
      destruct (IH (with_effects
                      (effects w ++
                       [ConsoleWarn [Text "[Alert] Image failed to load: ";
                                     Interp (read_src w e); Text ", using fallback"];
                        LoadSource avatar (ImageRenderer_fallbackSrc w)])
                      (with_document
                         (alter (set_src (ImageRenderer_fallbackSrc w)) avatar
                            (document w)) w))
                  (set_src (ImageRenderer_fallbackSrc w) e))
        as (w' & Hr & Hs).
      * destruct w; exact Hel.
      * destruct w. cbn in He |- *. now rewrite lookup_alter_eq, He.
      * destruct w; reflexivity.
      * exists w'. split; [exact Hr|]. rewrite Hs. destruct w; reflexivity.
Qed.

(** X12. With the avatar element in the page, [ImageRenderer.init] records
    as fallback the element's [data-fallback] when that is set and not
    empty, and the default image otherwise, and registers one more error
    listener, logging nothing.  From then on the first load failure leaves
    the element holding exactly that fallback as its source, unless the
    source it reports already is that fallback: then the source stays. *)
Theorem ImageRenderer_init_arms_fallback (w : World) (e : Element) :
  document w !! "#alert-avatar" = Some e ->
  let armed := exec ImageRenderer_init w in
  let declared := get_prop (dataset e) "fallback" in
  fst (ImageRenderer_init w) = Normal tt /\
  effects armed = effects w /\
  ImageRenderer_element armed = Some "#alert-avatar" /\
  ImageRenderer_fallbackSrc armed
    = (if truthy declared then declared
       else VStr "https://i.imgur.com/y1kRGQp.gif") /\
  document armed !! "#alert-avatar" = Some (add_errorListener e) /\
  fst (avatar_load_failure armed) = Normal tt /\
  src_of (exec avatar_load_failure armed) "#alert-avatar"
    = Some (if strict_eq (read_src armed e) (ImageRenderer_fallbackSrc armed)
            then src e
            else ImageRenderer_fallbackSrc armed).
Proof.
  intros He armed declared.
  assert (Harmed :
    ImageRenderer_init w = (Normal tt, armed) /\
    effects armed = effects w /\
    ImageRenderer_element armed = Some "#alert-avatar" /\
    ImageRenderer_fallbackSrc armed
      = or_else declared (get_prop DEFAULTS "fallbackImage") /\
    document armed !! "#alert-avatar" = Some (add_errorListener e)).
  { subst armed declared. unfold ImageRenderer_init.
    destruct w as [cf al pr ru d rs f ie ifb ae xe ef pd]. cbn in He |- *.
    run_with He. rewrite lookup_alter_eq, He. cbn. repeat split; reflexivity. }
  destruct Harmed as (Hrun & Heff & Hel & Hfb & Hdoc).
  assert (Hdefault : get_prop DEFAULTS "fallbackImage"
                     = VStr "https://i.imgur.com/y1kRGQp.gif")
    by (vm_compute; reflexivity).
  rewrite Hrun. clearbody armed.
  split; [reflexivity|]. split; [exact Heff|].
  split; [exact Hel|]. split.
  { rewrite Hfb, Hdefault. reflexivity. }
  split; [exact Hdoc|].
  change (read_src armed e) with (read_src armed (add_errorListener e)).
  change (src e) with (src (add_errorListener e)).
  unfold exec. rewrite avatar_load_failure_unfold, Hdoc.
  change (errorListeners (add_errorListener e)) with (S (errorListeners e)).
  set (e' := add_errorListener e) in *.
  destruct (strict_eq (read_src armed e') (ImageRenderer_fallbackSrc armed)) eqn:Heq.
  - rewrite (repeat_on_fallback "#alert-avatar" ImageRenderer_handleError
               (handleError_on_fallback "#alert-avatar"))
      by (split; eauto).
    split; [reflexivity|]. cbn [snd]. unfold src_of. now rewrite Hdoc.
  - cbn [repeat_M]. unfold mbind, M_bind.
    rewrite (handleError_reassigns "#alert-avatar" e' armed Hel Hdoc Heq).
    match goal with
    | |- context [repeat_M _ _ ?W] =>
        destruct (handleError_keeps_fallback "#alert-avatar" (errorListeners e) W
                    (set_src (ImageRenderer_fallbackSrc armed) e'))
          as (w' & Hr & Hs)
    end.
    + destruct armed; exact Hel.
    + destruct armed. cbn in Hdoc |- *. now rewrite lookup_alter_eq, Hdoc.
    + destruct armed; reflexivity.
    + rewrite Hr. split; [reflexivity|]. cbn [snd]. rewrite Hs.
      destruct armed; reflexivity.
Qed.

Lemma ImageRenderer_init_arms_fallback_witness :
  src_of
    (exec avatar_load_failure
       (exec ImageRenderer_init
          (page None true None
             {["#alert-avatar" :=
                 set_data "fallback" (VStr "https://example.com/me.png")
                   (set_src (VStr "https://example.com/gone.png") blank)]})))
    "#alert-avatar" = Some (VStr "https://example.com/me.png").
Proof.
  pose proof (ImageRenderer_init_arms_fallback
                (page None true None
                   {["#alert-avatar" :=
                       set_data "fallback" (VStr "https://example.com/me.png")
                         (set_src (VStr "https://example.com/gone.png") blank)]})
                (set_data "fallback" (VStr "https://example.com/me.png")
                   (set_src (VStr "https://example.com/gone.png") blank))) as H.
  cbv zeta in H.
  destruct H as (_ & _ & _ & _ & _ & _ & H); [vm_compute; reflexivity|].
  rewrite H. vm_compute. reflexivity.
Defined.

(** ** Without the avatar element *)

(** X13. Without the avatar element, [ImageRenderer.init] logs one warning
    and holds no element; load failures then do nothing, however many. *)
Theorem ImageRenderer_without_avatar (w : World) :
  document w !! "#alert-avatar" = None ->
  let idle :=
    with_effects (effects w ++ [ConsoleWarn [Text "[Alert] Avatar element not found"]])
      (with_ImageRenderer_element None w) in
  ImageRenderer_init w = (Normal tt, idle) /\
  ImageRenderer_handleError idle = (Normal tt, idle) /\
  forall n, repeat_M n avatar_load_failure idle = (Normal tt, idle).
Proof.
  intros Havatar idle. subst idle.
  destruct w as [cf al pr ru d rs f ie ifb ae xe ef pd]. cbn in Havatar.
  split; [|split].
  - unfold ImageRenderer_init. run_with Havatar. reflexivity.
  - reflexivity.
  - intros n. induction n as [|n IH]; [reflexivity|].
    cbn [repeat_M]. unfold mbind, M_bind.
    replace (avatar_load_failure _) with 
      (@Normal unit tt, with_effects
         (ef ++ [ConsoleWarn [Text "[Alert] Avatar element not found"]])
         (with_ImageRenderer_element None
            (mkWorld cf al pr ru d rs f ie ifb ae xe ef pd))).
    + exact IH.
    + unfold avatar_load_failure. run_with Havatar. reflexivity.
Qed.

Lemma ImageRenderer_without_avatar_witness :
  ImageRenderer_init (page None true None ∅)
  = (Normal tt,
     with_effects
       (effects (page None true None ∅)
        ++ [ConsoleWarn [Text "[Alert] Avatar element not found"]])
       (with_ImageRenderer_element None (page None true None ∅))).
Proof.
  refine (proj1 (ImageRenderer_without_avatar (page None true None ∅) _)).
  vm_compute. reflexivity.
Defined.

(** ** When the fallback reads back *)

(** X16. With the avatar element in hand: when the source the element
    reports already is the recorded fallback, load failures, however many,
    change nothing and start no load.  When moreover the recorded fallback
    reads back as it is assigned (an absolute, normalized URL such as the
    default image), any number of consecutive load failures, from any
    source, start at most one load of the fallback, two failures in
    particular. *)
Theorem image_fallback_at_most_once (w : World) (e : Element) :
  ImageRenderer_element w = Some "#alert-avatar" ->
  document w !! "#alert-avatar" = Some e ->
  (strict_eq (read_src w e) (ImageRenderer_fallbackSrc w) = true ->
   forall n, repeat_M n avatar_load_failure w = (Normal tt, w)) /\
  (fallback_reads_back w = true ->
   (forall n, exists w',
       repeat_M n avatar_load_failure w = (Normal tt, w') /\
       (loads "#alert-avatar" w' <= S (loads "#alert-avatar" w))%nat) /\
   (loads "#alert-avatar" (exec (avatar_load_failure ;; avatar_load_failure) w)
    <= S (loads "#alert-avatar" w))%nat).
Proof.
  intros Hel He. split.
  - intros Heq n. apply (repeat_on_fallback "#alert-avatar").
    + apply failure_on_fallback.
    + split; eauto.
  - intros Hback.
    assert (Hready : fallback_ready "#alert-avatar" w)
      by (unfold fallback_ready; eauto).
    assert (Hmany : forall n, exists w',
               repeat_M n avatar_load_failure w = (Normal tt, w') /\
               (loads "#alert-avatar" w' <= S (loads "#alert-avatar" w))%nat).
    { intros n.
      destruct (repeat_step "#alert-avatar" avatar_load_failure
                  failure_on_fallback failure_ready_step n w Hready)
        as (w' & Hr & [Hw | [_ Hl]]); exists w'; (split; [exact Hr|]);
        [rewrite Hw; lia | lia]. }
    split; [exact Hmany|].
    destruct (Hmany 2%nat) as (w' & Hr & Hl).
    cbn [repeat_M] in Hr. unfold exec.
    replace ((avatar_load_failure ;; avatar_load_failure) w) with (Normal tt, w');
      [exact Hl|].
    rewrite <- Hr. unfold mbind, M_bind, mret, M_ret.
    destruct (avatar_load_failure w) as [[[]|err] w1]; [|reflexivity].
    destruct (avatar_load_failure w1) as [[[]|err] w2]; reflexivity.
Qed.

Lemma image_fallback_at_most_once_witness :
  (loads "#alert-avatar"
     (exec (avatar_load_failure ;; avatar_load_failure)
        (exec ImageRenderer_init
           (page None true None
              {["#alert-avatar" := set_src (VStr "https://example.com/gone.png") blank]})))
   <= S (loads "#alert-avatar"
           (exec ImageRenderer_init
              (page None true None
                 {["#alert-avatar" := set_src (VStr "https://example.com/gone.png") blank]}))))%nat.
Proof.
  pose proof (image_fallback_at_most_once
                (exec ImageRenderer_init
                   (page None true None
                      {["#alert-avatar" :=
                          set_src (VStr "https://example.com/gone.png") blank]}))
                (add_errorListener
                   (set_src (VStr "https://example.com/gone.png") blank))) as H.
  destruct H as (_ & H); [vm_compute; reflexivity | vm_compute; reflexivity |].
  apply H. vm_compute. reflexivity.
Defined.

(** ** Errors inside the pass *)

Lemma only_page_changed_refl w : only_page_changed w w.
Proof.
  unfold only_page_changed. repeat (split; [reflexivity|]).
  exists []. split; [now rewrite app_nil_r | constructor].
Qed.

Lemma only_page_changed_trans w1 w2 w3 :
  only_page_changed w1 w2 -> only_page_changed w2 w3 -> only_page_changed w1 w3.
Proof.
  unfold only_page_changed.
  intros (A1 & A2 & A3 & A4 & A5 & A6 & A7 & A8 & A9 & A10 & ws1 & E1 & F1)
         (B1 & B2 & B3 & B4 & B5 & B6 & B7 & B8 & B9 & B10 & ws2 & E2 & F2).
  repeat (split; [congruence|]).
  exists (ws1 ++ ws2)%list. split.
  - rewrite E2, E1. now rewrite app_assoc.
  - apply Forall_app. split; assumption.
Qed.

Lemma tidy_seq (m1 m2 : M unit) : tidy m1 -> tidy m2 -> tidy (m1 ;; m2).
Proof.
  intros H1 H2 w. destruct (H1 w) as (w1 & E1 & P1).
  destruct (H2 w1) as (w2 & E2 & P2). exists w2.
  unfold mbind, M_bind. rewrite E1. split; [exact E2|].
  eapply only_page_changed_trans; eauto.
Qed.

Ltac tidy_done :=
  eexists; (split; [reflexivity|]);
  unfold only_page_changed; cbn;
  rewrite ?dom_alter_document;
  repeat (split; [reflexivity|]);
  first [ exists []; split; [now rewrite app_nil_r | constructor]
        | eexists; split; [reflexivity | repeat constructor] ].

Lemma tidy_theme : tidy ThemeManager_apply.
Proof.
  intros w. destruct w as [cf al pr ru d rs f ie ifb ae xe ef pd].
  unfold ThemeManager_apply, ThemeManager_applyContainerSize,
    ThemeManager_applyContainerGradients, ThemeManager_applyAvatarSize,
    ThemeManager_applyRingGradients, ThemeManager_applyAnimation,
    ThemeManager_applyTypography.
  run_M. tidy_done.
Qed.

Lemma tidy_shape : tidy ShapeManager_apply.
Proof.
  intros w. destruct w as [cf al pr ru d rs f ie ifb ae xe ef pd].
  unfold ShapeManager_apply. run_M.
  destruct (d !! ".alert-frame"); run_M; [|tidy_done].
  destruct (negb _); destruct (d !! ".alert-avatar-wrapper"); run_M; tidy_done.
Qed.

Lemma tidy_dropShadow : tidy EffectsManager_applyDropShadow.
Proof.
  intros w. destruct w as [cf al pr ru d rs f ie ifb ae xe ef pd].
  unfold EffectsManager_applyDropShadow. run_M. tidy_done.
Qed.

Lemma tidy_glow : tidy EffectsManager_applyGlow.
Proof.
  intros w. destruct w as [cf al pr ru d rs f ie ifb ae xe ef pd].
  unfold EffectsManager_applyGlow. run_M.
  destruct (d !! ".alert-frame"); run_M; tidy_done.
Qed.

Lemma tidy_toggles : tidy EffectsManager_applyAnimationToggles.
Proof.
  intros w. destruct w as [cf al pr ru d rs f ie ifb ae xe ef pd].
  unfold EffectsManager_applyAnimationToggles. run_M.
  destruct (d !! ".alert-frame"); destruct (d !! ".alert-avatar-ring"); run_M;
    tidy_done.
Qed.

Lemma tidy_effects : tidy EffectsManager_apply.
Proof.
  unfold EffectsManager_apply.
  apply tidy_seq; [apply tidy_dropShadow|].
  apply tidy_seq; [apply tidy_glow | apply tidy_toggles].
Qed.

Lemma tidy_translators : tidy translators.
Proof.
  unfold translators.
  apply tidy_seq; [apply tidy_theme|].
  apply tidy_seq; [apply tidy_shape | apply tidy_effects].
Qed.

Lemma first_pass_split w :
  first_pass w =
  match translators w with
  | (Normal _, w') =>
      (AudioManager_play ;;
       AnimationController_playIntro ;;
       AccessibilityManager_announce "New subscription alert" ;;
       emit completion_logged) w'
  | (Throw e, w') => (Throw e, w')
  end.
Proof.
  unfold first_pass, translators, ImageRenderer_render, completion_logged,
    mbind, M_bind, mret, M_ret.
  destruct (ThemeManager_apply w) as [[[]|e0] w0]; [|reflexivity].
  destruct (ShapeManager_apply w0) as [[[]|e1] w1]; [|reflexivity].
  destruct (EffectsManager_apply w1) as [[[]|e2] w2]; reflexivity.
Qed.

Lemma managers_init_log w :
  exists w0 warnings,
    managers_init w = (Normal tt, w0) /\
    effects w0 = (effects w ++ warnings)%list /\
    Forall is_warning warnings /\
    pending w0 = pending w /\
    ConfigManager_fields w0 = default ∅ (customFields w) /\
    AudioManager_element w0 = found w "#alert-sound" /\
    AccessibilityManager_element w0 = found w "#sr-announcement" /\
    animeLoaded w0 = animeLoaded w /\
    dom (document w0) = dom (document w).
Proof.
  unfold managers_init, ImageRenderer_init, AudioManager_init,
    AccessibilityManager_init, found.
  destruct w as [cf al pr ru d rs f ie ifb ae xe ef pd]. run_M.
  destruct (d !! "#alert-sound") as [sound|] eqn:Hsound;
    destruct (d !! "#sr-announcement") as [announcer|] eqn:Hannouncer;
    destruct (d !! "#alert-avatar") as [avatar|] eqn:Havatar; run_M;
    rewrite ?Havatar; run_M;
    rewrite ?(lookup_alter_ne _ _ "#alert-avatar") by discriminate;
    rewrite ?Hsound, ?Hannouncer;
    eexists; 
    first [ exists []; split; [reflexivity|];
            split; [cbn; now rewrite app_nil_r|];
            split; [constructor|]; cbn; rewrite ?dom_alter_document;
            repeat split; reflexivity
          | eexists; split; [reflexivity|];
            split; [reflexivity|];
            split; [repeat constructor|]; cbn; rewrite ?dom_alter_document;
            repeat split; reflexivity ].
Qed.

Lemma AudioManager_play_breaks w sound :
  AudioManager_element w = Some sound ->
  sound_breaks (config_get (ConfigManager_fields w) "alertSound" (VStr "")) = true ->
  AudioManager_play w
  = (Throw [Text "TypeError: str.includes is not a function"], w).
Proof.
  intros Hel Hb. unfold AudioManager_play. destruct w.
  cbn in Hel, Hb |- *. run_with Hel. unfold sound_breaks in Hb.
  apply andb_true_iff in Hb as [Ht Hs]. rewrite Ht.
  unfold AudioManager_isTokenString. rewrite Ht. cbn [negb].
  destruct (config_get _ "alertSound" (VStr "")); try discriminate Hs; reflexivity.
Qed.

Lemma AudioManager_play_silent w :
  sound_breaks (config_get (ConfigManager_fields w) "alertSound" (VStr "")) = false ->
  sound_resolved (config_get (ConfigManager_fields w) "alertSound" (VStr "")) = false ->
  AudioManager_play w = (Normal tt, w).
Proof.
  intros Hb Hres. unfold AudioManager_play.
  destruct w as [cf al pr ru d rs f ie ifb ae xe ef pd]. cbn in Hb, Hres |- *.
  run_M. destruct ae as [sound|]; run_M; [|reflexivity].
  unfold sound_breaks in Hb. unfold AudioManager_isTokenString.
  destruct (config_get f "alertSound" (VStr "")) as [| |b|n|s|o];
    try (rewrite andb_true_r in Hb; rewrite Hb; reflexivity).
  cbn in Hres. cbn [truthy].
  destruct (String.eqb s ""); cbn [negb andb] in *; [reflexivity|].
  run_M. destruct (includes s "{"); cbn [negb andb orb] in *; [reflexivity|].
  rewrite negb_false_iff in Hres. rewrite Hres. reflexivity.
Qed.

Lemma AudioManager_play_passes w :
  sound_breaks (config_get (ConfigManager_fields w) "alertSound" (VStr "")) = false ->
  exists w' added,
    AudioManager_play w = (Normal tt, w') /\
    effects w' = (effects w ++ added)%list /\
    Forall (fun x => ~ is_error x) added /\
    animeLoaded w' = animeLoaded w /\
    AccessibilityManager_element w' = AccessibilityManager_element w.
Proof.
  intros Hb.
  destruct (sound_resolved
              (config_get (ConfigManager_fields w) "alertSound" (VStr "")))
    eqn:Hres.
  - destruct (AudioManager_element w) as [sound|] eqn:Hel.
    + rewrite (AudioManager_play_resolved w sound _ Hel eq_refl Hres).
      eexists.
      exists [LoadSource sound
                (config_get (ConfigManager_fields w) "alertSound" (VStr ""));
              PlayRequested sound].
      split; [reflexivity|].
      destruct w as [cf al pr ru d rs f ie ifb ae xe ef pd]; cbn.
      split; [reflexivity|]. split; [|split; reflexivity].
      repeat constructor; intros [].
    + exists w, []. split.
      * unfold AudioManager_play.
        destruct w as [cf al pr ru d rs f ie ifb ae xe ef pd]. cbn in Hel |- *.
        run_with Hel. reflexivity.
      * split; [now rewrite app_nil_r|]. split; [constructor|]. split; reflexivity.
  - exists w, []. split; [now apply AudioManager_play_silent|].
    split; [now rewrite app_nil_r|]. split; [constructor|]. split; reflexivity.
Qed.

Lemma AudioManager_play_absent w :
  AudioManager_element w = None -> AudioManager_play w = (Normal tt, w).
Proof.
  intros Hel. unfold AudioManager_play.
  destruct w as [cf al pr ru d rs f ie ifb ae xe ef pd]. cbn in Hel |- *.
  run_with Hel. reflexivity.
Qed.

Lemma playIntro_log w :
  exists w' added,
    AnimationController_playIntro w = (Normal tt, w') /\
    effects w' = (effects w ++ added)%list /\
    Forall (fun x => ~ is_error x) added /\
    AccessibilityManager_element w' = AccessibilityManager_element w.
Proof.
  pose proof (playIntro_closed w) as H. cbv zeta in H.
  match type of H with
  | _ = (Normal tt, with_effects (effects w ++ ?A) w) =>
      exists (with_effects (effects w ++ A) w), A
  end.
  split; [exact H|]. split; [now destruct w|]. split; [|now destruct w].
  destruct (animeLoaded w); cbn [negb]; [|repeat constructor; intros []].
  destruct (omap _ _); repeat constructor; intros [].
Qed.

Lemma announce_log message w :
  exists w',
    AccessibilityManager_announce message w = (Normal tt, w') /\
    effects w' = effects w.
Proof.
  unfold AccessibilityManager_announce.
  destruct w as [cf al pr ru d rs f ie ifb ae xe ef pd]. run_M.
  destruct xe; run_M; eexists; split; reflexivity.
Qed.

Lemma Forall_warning_no_error l :
  Forall is_warning l -> Forall (fun x => ~ is_error x) l.
Proof.
  intros H. eapply Forall_impl; [exact H|]. intros [] Hw He; cbn in *; auto.
Qed.

(** X14. The pass never throws.  When the sound element is there and the
    configured sound source is truthy without being a string (a number,
    [true]), [isTokenString] fails: the pass then leaves exactly what the
    managers' initialization and the three translators leave, with the
    error logged last, after warnings only; nothing is queued, and the
    intro animation, the announcement and the completion message are
    skipped.  In every other case the pass logs no error and its
    completion message comes last. *)
Theorem init_contains_errors (w : World) :
  let source := config_get (default ∅ (customFields w)) "alertSound" (VStr "") in
  let breaks :=
    bool_decide (is_Some (document w !! "#alert-sound")) && sound_breaks source in
  let translated := exec (managers_init ;; translators) w in
  fst (init w) = Normal tt /\
  exists added,
    effects (exec init w) = (effects w ++ added)%list /\
    (breaks = true ->
     exec init w
       = with_effects (effects translated ++ [includes_error]) translated /\
     pending (exec init w) = pending w /\
     exists warnings,
       added = (warnings ++ [includes_error])%list /\ Forall is_warning warnings) /\
    (breaks = false ->
     exists before,
       added = (before ++ [completion_logged])%list /\
       Forall (fun x => ~ is_error x) before).
Proof.
  intros source breaks translated.
  destruct (managers_init_log w)
    as (w0 & ws0 & E0 & Heff0 & Hw0 & Hpend0 & Hf0 & Ha0 & Hx0 & _ & _).
  destruct (tidy_translators w0)
    as (w3 & E3 & _ & _ & _ & _ & Hf3 & _ & _ & Ha3 & Hx3 & Hpend3 & ws & Heff3 & Hw3).
  assert (Htranslated : translated = w3).
  { subst translated. unfold exec, mbind, M_bind. now rewrite E0, E3. }
  clearbody translated. subst translated.
  assert (Hsource : config_get (ConfigManager_fields w3) "alertSound" (VStr "")
                    = source).
  { subst source. now rewrite Hf3, Hf0. }
  destruct breaks eqn:Hbreaks; subst breaks.
  - apply andb_true_iff in Hbreaks as [Hpres Hb].
    apply bool_decide_eq_true in Hpres. destruct Hpres as [e He].
    assert (Hel : AudioManager_element w3 = Some "#alert-sound").
    { rewrite Ha3, Ha0. unfold found. now rewrite He. }
    assert (Hinit : init w
                    = (Normal tt,
                       with_effects (effects w3 ++ [includes_error]) w3)).
    { rewrite init_unfold. unfold try_catch, mbind, M_bind. rewrite E0.
      rewrite first_pass_split, E3. unfold mbind, M_bind.
      rewrite (AudioManager_play_breaks w3 "#alert-sound" Hel)
        by (now rewrite Hsource).
      reflexivity. }
    unfold exec. rewrite Hinit. cbn [fst snd]. split; [reflexivity|].
    exists ((ws0 ++ ws) ++ [includes_error])%list.
    destruct w3 as [cf al pr ru d rs f ie ifb ae xe ef pd].
    cbn in Heff3, Hpend3 |- *. split.
    { rewrite Heff3, Heff0. now rewrite !app_assoc. }
    split; [|discriminate]. intros _. split; [reflexivity|].
    split; [congruence|].
    exists (ws0 ++ ws)%list. split; [reflexivity|].
    apply Forall_app. split; assumption.
  - assert (Hplay : exists w4 audio,
               AudioManager_play w3 = (Normal tt, w4) /\
               effects w4 = (effects w3 ++ audio)%list /\
               Forall (fun x => ~ is_error x) audio).
    { apply andb_false_iff in Hbreaks as [Hpres | Hb].
      - apply bool_decide_eq_false in Hpres.
        assert (Hel : AudioManager_element w3 = None).
        { rewrite Ha3, Ha0. unfold found.
          destruct (document w !! "#alert-sound"); [|reflexivity].
          exfalso. apply Hpres. eauto. }
        exists w3, []. split; [now apply AudioManager_play_absent|].
        split; [now rewrite app_nil_r | constructor].
      - destruct (AudioManager_play_passes w3) as (w4 & audio & E & H1 & H2 & _).
        + now rewrite Hsource.
        + exists w4, audio. auto. }
    destruct Hplay as (w4 & audio & E4 & Heff4 & Hn4).
    destruct (playIntro_log w4) as (w5 & intro & E5 & Heff5 & Hn5 & _).
    destruct (announce_log "New subscription alert" w5) as (w6 & E6 & Heff6).
    assert (Hinit : init w
                    = (Normal tt,
                       with_effects (effects w6 ++ [completion_logged]) w6)).
    { rewrite init_unfold. unfold try_catch, mbind, M_bind. rewrite E0.
      rewrite first_pass_split, E3. unfold mbind, M_bind. rewrite E4, E5, E6.
      reflexivity. }
    unfold exec. rewrite Hinit. cbn [fst snd]. split; [reflexivity|].
    exists ((((ws0 ++ ws) ++ audio) ++ intro) ++ [completion_logged])%list.
    destruct w6 as [cf al pr ru d rs f ie ifb ae xe ef pd].
    cbn in Heff6 |- *. split.
    { rewrite Heff6, Heff5, Heff4, Heff3, Heff0. now rewrite !app_assoc. }
    split; [discriminate|]. intros _.
    exists (((ws0 ++ ws) ++ audio) ++ intro)%list. split; [reflexivity|].
    apply Forall_app. split; [|exact Hn5].
    apply Forall_app. split; [|exact Hn4].
    apply Forall_app. split; apply Forall_warning_no_error; assumption.
Qed.

Lemma init_contains_errors_witness :
  exec init (page (Some {["alertSound" := VBool true]}) true None
               {["#alert-sound" := blank]})
  = with_effects
      (effects
         (exec (managers_init ;; translators)
            (page (Some {["alertSound" := VBool true]}) true None
               {["#alert-sound" := blank]}))
       ++ [includes_error])
      (exec (managers_init ;; translators)
         (page (Some {["alertSound" := VBool true]}) true None
            {["#alert-sound" := blank]})).
Proof.
  pose proof (init_contains_errors
                (page (Some {["alertSound" := VBool true]}) true None
                   {["#alert-sound" := blank]})) as H.
  cbv zeta in H. destruct H as (_ & added & _ & Hbreak & _).
  apply Hbreak. vm_compute. reflexivity.
Defined.

(** ** What the pass leaves alone *)

Section Keeps.
Variable p : Place.
Hypothesis p_foreign : foreign p.

Lemma foreign_neq q : q ∈ written_places -> p <> q.
Proof.
  intros Hq ->. destruct q as [n|el key|el c|el]; cbn in p_foreign.
  - unfold written_places in Hq.
    repeat (apply elem_of_cons in Hq as [Hq|Hq]; [discriminate Hq|]).
    now apply elem_of_nil in Hq.
  - contradiction.
  - contradiction.
  - contradiction.
Qed.

Lemma keeps_gets {A} (f : World -> A) : keeps p (gets f).
Proof. intros w Hw. cbn. auto. Qed.

Lemma keeps_ret {A} (a : A) : keeps p (mret a).
Proof. intros w Hw. cbn. auto. Qed.

Lemma keeps_throw {A} e : keeps p (@throw A e).
Proof. intros w Hw. cbn. auto. Qed.

Lemma keeps_bind {A B} (m : M A) (k : A -> M B) :
  keeps p m -> (forall a, keeps p (k a)) -> keeps p (m ≫= k).
Proof.
  intros Hm Hk w Hw. unfold mbind, M_bind.
  destruct (Hm w Hw) as [H1 H2].
  destruct (m w) as [[a|e] w1]; cbn in H1, H2 |- *; [|auto].
  destruct (Hk a w1 H1) as [H3 H4]. split; [exact H3 | congruence].
Qed.

Lemma keeps_query_bind {B} selector (k : option string -> M B) :
  keeps p (k (Some selector)) -> keeps p (k None) ->
  keeps p (query selector ≫= k).
Proof.
  intros Hs Hn w Hw. unfold mbind, M_bind, query, gets.
  destruct (document w !! selector); [apply Hs | apply Hn]; exact Hw.
Qed.

Lemma keeps_sound_bind {B} (k : option string -> M B) :
  keeps p (k (Some "#alert-sound")) -> keeps p (k None) ->
  keeps p (gets AudioManager_element ≫= k).
Proof.
  intros Hs Hn w Hw. unfold mbind, M_bind, gets.
  destruct Hw as [Hw|Hw]; rewrite Hw; [apply Hn | apply Hs]; auto;
    [now left | now right].
Qed.

Lemma keeps_emit e : keeps p (emit e).
Proof. intros w Hw. destruct w; cbn in *. split; [exact Hw|]. now destruct p. Qed.

Lemma keeps_defer t : keeps p (defer t).
Proof. intros w Hw. destruct w; cbn in *. split; [exact Hw|]. now destruct p. Qed.

Lemma keeps_setVar name value : keeps p (setVar name value).
Proof.
  intros w Hw. destruct w as [cf al pr ru d rs f ie ifb ae xe ef pd]; cbn in *.
  split; [exact Hw|]. destruct p as [n|el key|el c|el]; try reflexivity.
  cbn in p_foreign |- *. rewrite lookup_insert_ne; [reflexivity|].
  intros E.
  assert (H : String.prefix "--" ("--" ++ name) = true)
    by (unfold String.append; cbn; now destruct name).
  rewrite E in H. congruence.
Qed.

Lemma keeps_update_element el g : leaves p el g -> keeps p (update_element el g).
Proof.
  intros Hg w Hw. destruct w as [cf al pr ru d rs f ie ifb ae xe ef pd]; cbn in *.
  split; [exact Hw|]. destruct p as [n|el' key|el' c|el']; cbn in Hg |- *.
  - reflexivity.
  - unfold data_of. cbn. rewrite lookup_alter.
    destruct (decide (el = el')) as [<-|Hne]; [|reflexivity].
    destruct (d !! el) as [e|]; cbn; [|reflexivity]. now rewrite Hg.
  - unfold classes_of. cbn. rewrite lookup_alter.
    destruct (decide (el = el')) as [<-|Hne]; [|reflexivity].
    destruct (d !! el) as [e|]; cbn; [|reflexivity]. now rewrite Hg.
  - unfold src_of. cbn. rewrite lookup_alter.
    destruct (decide (el = el')) as [<-|Hne]; [|reflexivity].
    destruct (d !! el) as [e|]; cbn; [|reflexivity]. now rewrite Hg.
Qed.

Lemma leaves_set_data el key v : p <> DataAttr el key -> leaves p el (set_data key v).
Proof.
  intros Hne. destruct p as [n|el' k|el' c|el']; cbn; auto.
  intros -> e. apply lookup_insert_ne. congruence.
Qed.

Lemma leaves_delete_data el key : p <> DataAttr el key -> leaves p el (delete_data key).
Proof.
  intros Hne. destruct p as [n|el' k|el' c|el']; cbn; auto.
  intros -> e. apply lookup_delete_ne. congruence.
Qed.

Lemma leaves_toggle_class el name force :
  p <> ClassName el name -> leaves p el (toggle_class name force).
Proof.
  intros Hne. destruct p as [n|el' k|el' c|el']; cbn [leaves]; auto.
  intros -> e. apply bool_decide_ext. apply toggle_class_other. congruence.
Qed.

Lemma leaves_set_src el v : p <> SrcAttr el -> leaves p el (set_src v).
Proof.
  intros Hne. destruct p as [n|el' k|el' c|el']; cbn; auto.
  intros -> e. congruence.
Qed.

Lemma leaves_set_volume el n : leaves p el (set_volume n).
Proof. destruct p; cbn; auto. Qed.

Lemma leaves_set_currentTime el n : leaves p el (set_currentTime n).
Proof. destruct p; cbn; auto. Qed.

Lemma leaves_set_textContent el s : leaves p el (set_textContent s).
Proof. destruct p; cbn; auto. Qed.

Lemma keeps_for_each indices body :
  (forall i, keeps p (body i)) -> keeps p (for_each indices body).
Proof.
  intros Hb. induction indices as [|i rest IH]; cbn [for_each].
  - apply keeps_ret.
  - apply keeps_bind; auto.
Qed.

Ltac written_place :=
  apply foreign_neq; apply list_elem_of_In; cbn; tauto.

Ltac keeps_step :=
  match goal with
  | |- keeps _ (query _ ≫= _) => apply keeps_query_bind
  | |- keeps _ (gets AudioManager_element ≫= _) => apply keeps_sound_bind
  | |- keeps _ (_ ≫= _) => apply keeps_bind; [|intros ?]
  | |- keeps _ (for_each _ _) => apply keeps_for_each; intros ?
  | |- keeps _ (gets _) => apply keeps_gets
  | |- keeps _ (ConfigManager_get _ _) => apply keeps_gets
  | |- keeps _ (mret _) => apply keeps_ret
  | |- keeps _ (throw _) => apply keeps_throw
  | |- keeps _ (emit _) => apply keeps_emit
  | |- keeps _ (defer _) => apply keeps_defer
  | |- keeps _ (setVar _ _) => apply keeps_setVar
  | |- keeps _ (update_element _ (set_data _ _)) =>
      apply keeps_update_element, leaves_set_data; written_place
  | |- keeps _ (update_element _ (delete_data _)) =>
      apply keeps_update_element, leaves_delete_data; written_place
  | |- keeps _ (update_element _ (toggle_class _ _)) =>
      apply keeps_update_element, leaves_toggle_class; written_place
  | |- keeps _ (update_element _ (set_src _)) =>
      apply keeps_update_element, leaves_set_src; written_place
  | |- keeps _ (update_element _ (set_volume _)) =>
      apply keeps_update_element, leaves_set_volume
  | |- keeps _ (update_element _ (set_currentTime _)) =>
      apply keeps_update_element, leaves_set_currentTime
  | |- keeps _ (update_element _ (set_textContent _)) =>
      apply keeps_update_element, leaves_set_textContent
  | |- keeps _ (match ?x with _ => _ end) => destruct x
  end.

Ltac keeps_tac := cbv zeta; repeat keeps_step.

Lemma keeps_first_pass : keeps p first_pass.
Proof.
  unfold first_pass, ImageRenderer_render.
  apply keeps_bind; [|intros _].
  { unfold ThemeManager_apply, ThemeManager_applyContainerSize,
      ThemeManager_applyContainerGradients, ThemeManager_applyAvatarSize,
      ThemeManager_applyRingGradients, ThemeManager_applyAnimation,
      ThemeManager_applyTypography. keeps_tac. }
  apply keeps_bind; [|intros _].
  { unfold ShapeManager_apply. keeps_tac. }
  apply keeps_bind; [|intros _].
  { unfold EffectsManager_apply, EffectsManager_applyDropShadow,
      EffectsManager_applyGlow, EffectsManager_applyAnimationToggles.
    keeps_tac. }
  apply keeps_bind; [apply keeps_ret | intros _].
  apply keeps_bind; [|intros _].
  { unfold AudioManager_play, AudioManager_isTokenString, assign_src. keeps_tac. }
  apply keeps_bind; [|intros _].
  { unfold AnimationController_playIntro, AnimationController_isAvailable.
    keeps_tac. }
  apply keeps_bind; [|intros _].
  { unfold AccessibilityManager_announce. keeps_tac. }
  apply keeps_emit.
Qed.

End Keeps.

(** X15. The pass leaves alone every place it has no business with: a
    style property that is not a custom property, and on every element
    every data attribute, class and source other than the frame's shape
    and aspect, the wrapper's avatar shape, the four toggled classes and
    the sound element's source; a thrown error does not change that. *)
Theorem init_leaves_foreign_places (w : World) (p : Place) :
  foreign p -> seen (exec init w) p = seen w p.
Proof.
  intros Hp.
  destruct (init_result w) as (w0 & w1 & c & E0 & E1 & Hseen & _).
  destruct (managers_init_spec w) as (x & Ex & _ & Sx & _ & Ax & _).
  assert (x = w0) by congruence. subst x.
  assert (Hb : sound_bound w0).
  { unfold sound_bound. rewrite Ax.
    destruct (document w !! "#alert-sound"); auto. }
  destruct (keeps_first_pass p Hp w0 Hb) as [_ Hk].
  rewrite E1 in Hk. cbn [snd] in Hk. now rewrite Hseen, Hk, Sx.
Qed.

Lemma init_leaves_foreign_places_witness :
  seen
    (exec init
       (with_rootStyle {["color" := [Text "red"]]}
          (page None true None {[".alert-frame" := blank]})))
    (StyleVar "color")
  = seen
      (with_rootStyle {["color" := [Text "red"]]}
         (page None true None {[".alert-frame" := blank]}))
      (StyleVar "color").
Proof.
  apply init_leaves_foreign_places. reflexivity.
Defined.
